(** * Vitoconnect request scheduler: SmartQueue, dispatcher and producer

    Shallow embedding of
    [components/vitoconnect/vitoconnect_smart_queue.h] (struct
    [QueuedRequest], class [SmartQueue]) and of [VitoConnect::loop] and
    [VitoConnect::update] of [components/vitoconnect/vitoconnect.cpp].

    Conventions.
    - [uint16_t], [uint8_t] and [uint32_t] values are integers ([Z]); the
      only arithmetic the scheduler does on them is the unsigned 32-bit
      subtraction [now - t], written [wsub] with its wrap-around.
    - a [std::vector<QueuedRequest>] is a [list QueuedRequest], front first.
    - [millis()] is an input: every operation takes the clock reading(s) it
      makes as arguments, in the order the code reads them.
    - a [void*] callback argument is an [option CbArg]; [None] is [nullptr].
    - logging is kept only where a property speaks about it. *)

From Stdlib Require Import ZArith List Bool Lia.
Import ListNotations.

Local Open Scope Z_scope.

(** ** Machine arithmetic *)

Definition UINT32_MOD : Z := 2 ^ 32.

(** [a - b] on [uint32_t]. *)
Definition wsub (a b : Z) : Z := (a - b) mod UINT32_MOD.

(** ** Datapoints *)

(** Modelled from the spec: the declaration of [Datapoint] is not among the
    sources.  A registered point has an address, a length, a pending local
    modification or none (section 4.3); the record keeps these as [update]
    and [loop] read them ([getAddress()], [getLength()], [getLastUpdate()],
    non-zero while a write is pending, [encode]), with the address of the
    object itself, from which [update] derives the component identifier. *)
Record Datapoint : Type := mkDatapoint {
  dp_ptr : Z;
  dp_address : Z;
  dp_length : Z;
  dp_last_update : Z;
  dp_encode : Z -> list Z
}.

(** ** Completion context *)

(** Modelled from the spec: the declaration of [CbArg] is not among the
    sources.  It is the completion context of section 3; the scheduler only
    stores the pointer and the dispatcher only tests it against [nullptr].
    The record keeps what [update] passes to the constructor: the datapoint,
    the write flag, the modification stamp and the bytes a verification read
    compares against. *)
Record CbArg : Type := mkCbArg {
  cb_dp : Datapoint;
  cb_w : bool;
  cb_last_update : Z;
  cb_d : option (list Z)
}.

(** ** struct QueuedRequest *)

Record QueuedRequest : Type := mkReq {
  address : Z;
  length : Z;
  is_write : bool;
  callback_arg : option CbArg;
  component_type : Z;
  enqueue_time : Z
}.

(** [QueuedRequest::matches] *)
Definition matches (r : QueuedRequest) (addr : Z) (write : bool) (comp_type : Z) : bool :=
  (address r =? addr) && Bool.eqb (is_write r) write && (component_type r =? comp_type).

(** The deduplication key of a request: what [matches] compares. *)
Definition key (r : QueuedRequest) : Z * bool * Z :=
  (address r, is_write r, component_type r).

(** ** class SmartQueue *)

Module SmartQueue.

Definition MAX_QUEUE_SIZE : nat := 64.
Definition INTER_COMM_DELAY_MS : Z := 50.
Definition REQUEST_TIMEOUT_MS : Z := 30000.
Definition RETRY_DELAY_MS : Z := 50.

Record t : Type := mk {
  write_queue : list QueuedRequest;
  read_queue : list QueuedRequest;
  has_current : bool;
  current_is_write : bool;
  last_comm_time : Z;
  last_retry_time : Z
}.

(** The constructor [SmartQueue()]. *)
Definition init : t := mk [] [] false false 0 0.

(** [size()], [write_count()], [read_count()], [is_empty()] *)
Definition size (s : t) : nat :=
  (List.length (write_queue s) + List.length (read_queue s))%nat.
Definition write_count (s : t) : nat := List.length (write_queue s).
Definition read_count (s : t) : nat := List.length (read_queue s).
Definition is_empty (s : t) : bool :=
  match write_queue s, read_queue s with
  | [], [] => true
  | _, _ => false
  end.

(** [get_current_ptr()]: the in-flight request is re-resolved as the front
    of the queue named by [current_is_write_]. *)
Definition get_current_ptr (s : t) : option QueuedRequest :=
  if negb (has_current s) then None
  else if current_is_write s then hd_error (write_queue s)
  else hd_error (read_queue s).

(** [has_pending(address, is_write, comp_type)] *)
Definition has_pending (s : t) (addr : Z) (write : bool) (comp_type : Z) : bool :=
  let queue := if write then write_queue s else read_queue s in
  if existsb (fun req => matches req addr write comp_type) queue then true
  else if has_current s && Bool.eqb (current_is_write s) write then
    match get_current_ptr s with
    | Some current => matches current addr write comp_type
    | None => false
    end
  else false.

(** The guard in front of the deduplication scan of [enqueue]: always for a
    write, for a read only once the read queue holds more than 10. *)
Definition dedup_checked (s : t) (write : bool) : bool :=
  write || (10 <? List.length (read_queue s))%nat.

(** [enqueue(address, length, is_write, arg, comp_type)], with [now] the
    value [millis()] returns. *)
Definition enqueue (s : t) (addr len : Z) (write : bool) (arg : option CbArg)
    (comp_type : Z) (now : Z) : bool * t :=
  if (MAX_QUEUE_SIZE <=? List.length (write_queue s) + List.length (read_queue s))%nat
  then (false, s)
  else if dedup_checked s write && has_pending s addr write comp_type
  then (true, s)
  else
    let req := mkReq addr len write arg comp_type now in
    if write
    then (true, mk (write_queue s ++ [req]) (read_queue s) (has_current s)
                   (current_is_write s) (last_comm_time s) (last_retry_time s))
    else (true, mk (write_queue s) (read_queue s ++ [req]) (has_current s)
                   (current_is_write s) (last_comm_time s) (last_retry_time s)).

(** [release_current()]; [erase(begin())] on a non-empty vector is [tl], and
    the code skips it on an empty one, as [tl] does. *)
Definition release_current (s : t) (now : Z) : t :=
  if negb (has_current s) then s
  else
    mk (if current_is_write s then tl (write_queue s) else write_queue s)
       (if current_is_write s then read_queue s else tl (read_queue s))
       false (current_is_write s) now 0.

(** [retry_current()] *)
Definition retry_current (s : t) (now : Z) : t :=
  if negb (has_current s) then s
  else mk (write_queue s) (read_queue s) false (current_is_write s)
          (last_comm_time s) now.

Definition set_last_retry_time (s : t) (v : Z) : t :=
  mk (write_queue s) (read_queue s) (has_current s) (current_is_write s)
     (last_comm_time s) v.

Definition select (s : t) (write : bool) : t :=
  mk (write_queue s) (read_queue s) true write (last_comm_time s) 0.

(** [get_next()].  [now] is the clock read on entry; [now_rel] is the clock
    read by the nested [release_current()] of the timeout branch.  The
    result is the request the returned pointer designates. *)
Definition get_next (s : t) (now now_rel : Z) : option QueuedRequest * t :=
  if (0 <? last_retry_time s) && (wsub now (last_retry_time s) <? RETRY_DELAY_MS)
  then (None, s)
  else if negb (has_current s) && (wsub now (last_comm_time s) <? INTER_COMM_DELAY_MS)
  then (None, s)
  else if has_current s then
    match get_current_ptr s with
    | None =>
        (None, mk (write_queue s) (read_queue s) false (current_is_write s)
                  (last_comm_time s) 0)
    | Some current =>
        if REQUEST_TIMEOUT_MS <? wsub now (enqueue_time current)
        then (None, set_last_retry_time (release_current s now_rel) 0)
        else (Some current, s)
    end
  else
    match write_queue s with
    | req :: _ => (Some req, select s true)
    | [] =>
        match read_queue s with
        | req :: _ => (Some req, select s false)
        | [] => (None, s)
        end
    end.

(** The loop of the [cleanup] lambda of [cleanup_stale()]: an element is
    erased, and the scan goes on at the element that took its place, or it
    is kept and the iterator advances. *)
Fixpoint cleanup (now : Z) (queue : list QueuedRequest) : list QueuedRequest :=
  match queue with
  | [] => []
  | req :: rest =>
      if REQUEST_TIMEOUT_MS <? wsub now (enqueue_time req)
      then cleanup now rest
      else req :: cleanup now rest
  end.

(** [cleanup_stale()] *)
Definition cleanup_stale (s : t) (now : Z) : t :=
  mk (cleanup now (write_queue s)) (cleanup now (read_queue s))
     (has_current s) (current_is_write s) (last_comm_time s) (last_retry_time s).

(** *** Histories of calls

    The public interface as a labelled transition system; a state is
    reachable when some sequence of calls leads to it from the constructor. *)
Inductive call : Type :=
| CEnqueue (addr len : Z) (write : bool) (arg : option CbArg) (comp_type now : Z)
| CGetNext (now now_rel : Z)
| CRetry (now : Z)
| CRelease (now : Z)
| CCleanup (now : Z).

Definition step (s : t) (c : call) : t :=
  match c with
  | CEnqueue addr len write arg comp_type now =>
      snd (enqueue s addr len write arg comp_type now)
  | CGetNext now now_rel => snd (get_next s now now_rel)
  | CRetry now => retry_current s now
  | CRelease now => release_current s now
  | CCleanup now => cleanup_stale s now
  end.

Definition run (s : t) (cs : list call) : t := fold_left step cs s.

Inductive reachable : t -> Prop :=
| reach_init : reachable init
| reach_step : forall s c, reachable s -> reachable (step s c).

End SmartQueue.

(** ** class VitoConnect: dispatcher step and producer step *)

Module VitoConnect.

(** Modelled from the spec: the Optolink classes are not among the sources.
    Of the transport contract of section 6, this is what one dispatcher
    step observes after [_optolink->loop()] has run: [is_ready()],
    [queue_size()], and whether the transport takes the request handed to
    [read] or [write]. *)
Record Optolink : Type := mkOptolink {
  is_ready : bool;
  queue_size : nat;
  accepts : bool
}.

(** What a dispatcher step does besides updating the scheduler. *)
Inductive effect : Type :=
| LogInvalidCallbackArg (addr : Z)
| OptolinkWrite (addr len : Z) (data : list Z) (arg : CbArg)
| OptolinkRead (addr len : Z) (arg : CbArg).

(** [queue_size() > OPTOLINK_MAX * 0.8] with [OPTOLINK_MAX = 64]: the bound
    is 51.2, which an integer exceeds exactly when it exceeds 51. *)
Definition optolink_busy (o : Optolink) : bool := (51 <? queue_size o)%nat.

(** [VitoConnect::loop()].  [t1] is the first clock reading of the step,
    [t2] the second one (the step makes at most two that reach the
    scheduler). *)
Definition loop (o : Optolink) (q : SmartQueue.t) (t1 t2 : Z)
    : list effect * SmartQueue.t :=
  if negb (is_ready o) then ([], SmartQueue.retry_current q t1)
  else
    match SmartQueue.get_next q t1 t2 with
    | (None, q1) => ([], q1)
    | (Some req, q1) =>
        match callback_arg req with
        | None =>
            ([LogInvalidCallbackArg (address req)], SmartQueue.release_current q1 t2)
        | Some cbArg =>
            if optolink_busy o then ([], SmartQueue.retry_current q1 t2)
            else if is_write req then
              let data := dp_encode (cb_dp cbArg) (length req) in
              ([OptolinkWrite (address req) (length req) data cbArg],
               if accepts o then q1 else SmartQueue.retry_current q1 t2)
            else
              ([OptolinkRead (address req) (length req) cbArg],
               if accepts o then q1 else SmartQueue.retry_current q1 t2)
        end
    end.

(** The places of [update] that reach [millis()], through [enqueue] or
    [cleanup_stale], each with the index of the datapoint being handled.
    A clock gives the reading made at each place. *)
Inductive site : Type :=
| AtWrite (i : nat)
| AtVerify (i : nat)
| AtRead (i : nat)
| AtCleanup.

Definition BATCH_SIZE : nat := 20.

(** [(reinterpret_cast<uintptr_t>(dp) >> 4) & 0xFF] *)
Definition comp_id (dp : Datapoint) : Z := Z.land (Z.shiftr (dp_ptr dp) 4) 255.

(** The producer state: the scheduler and the two function-local statics of
    [update]. *)
Record t : Type := mk {
  smart_queue : SmartQueue.t;
  cleanup_counter : Z;
  last_datapoint_index : nat
}.

Definition init : t := mk SmartQueue.init 0 0.

Section Producer.

Variable clock : site -> Z.

(** Pass 1 of [update]: every modified datapoint gets a write and, when the
    write was taken, a verification read. *)
Fixpoint enqueue_writes (q : SmartQueue.t) (i : nat) (dps : list Datapoint)
    : SmartQueue.t :=
  match dps with
  | [] => q
  | dp :: rest =>
      if negb (dp_last_update dp =? 0) then
        let data := dp_encode dp (dp_length dp) in
        let writeCbArg := mkCbArg dp true (dp_last_update dp) None in
        let (ok, q1) :=
          SmartQueue.enqueue q (dp_address dp) (dp_length dp) true
            (Some writeCbArg) (comp_id dp) (clock (AtWrite i)) in
        if negb ok then enqueue_writes q1 (S i) rest
        else
          let readCbArg := mkCbArg dp false 0 (Some data) in
          let (_, q2) :=
            SmartQueue.enqueue q1 (dp_address dp) (dp_length dp) false
              (Some readCbArg) (comp_id dp) (clock (AtVerify i)) in
          enqueue_writes q2 (S i) rest
      else enqueue_writes q (S i) rest
  end.

(** Pass 2 of [update], the loop from index [i] over the datapoints [dps]
    that remain, with [processed] the count so far.  The result carries
    [Some next] when the batch filled up and the function returned with
    [last_datapoint_index = next], and [None] when the loop ran to the end
    of the list. *)
Fixpoint enqueue_reads (q : SmartQueue.t) (i processed : nat)
    (dps : list Datapoint) : SmartQueue.t * option nat :=
  match dps with
  | [] => (q, None)
  | dp :: rest =>
      let arg := mkCbArg dp false 0 None in
      let (ok, q1) :=
        SmartQueue.enqueue q (dp_address dp) (dp_length dp) false (Some arg)
          (comp_id dp) (clock (AtRead i)) in
      if negb ok then enqueue_reads q1 (S i) processed rest
      else if (BATCH_SIZE <=? S processed)%nat then (q1, Some (S i))
      else enqueue_reads q1 (S i) (S processed) rest
  end.

(** [VitoConnect::update()] over the registered datapoints [dps]. *)
Definition update (dps : list Datapoint) (v : t) : t :=
  let q1 := enqueue_writes (smart_queue v) 0 dps in
  match enqueue_reads q1 (last_datapoint_index v) 0
          (skipn (last_datapoint_index v) dps) with
  | (q2, Some next) => mk q2 (cleanup_counter v) next
  | (q2, None) =>
      if 10 <=? cleanup_counter v + 1
      then mk (SmartQueue.cleanup_stale q2 (clock AtCleanup)) 0 0
      else mk q2 (cleanup_counter v + 1) 0
  end.

End Producer.

(** *** Completion handlers *)

(** What a completion handler does besides releasing the scheduler: the
    branch it logs, the call of [decode], the call of the user's error
    callback. *)
Inductive completion_effect : Type :=
| LogAwaitingConfirmation
| LogWriteCompleted
| LogLengthMismatch
| LogVerified
| LogVerificationFailed
| Decode (data : list Z) (len : Z)
| ErrorCallback (error : Z).

(** [memcmp(data, d, len) == 0] on buffers that hold at least [len] bytes. *)
Definition memcmp_eq (data d : list Z) (len : Z) : bool :=
  if list_eq_dec Z.eq_dec (firstn (Z.to_nat len) data) (firstn (Z.to_nat len) d)
  then true else false.

(** Modelled from the spec: [Datapoint::clearLastUpdate] is not among the
    sources; it clears the pending-write flag of the point (section 4.3),
    that is, the stamp [getLastUpdate()] returns. *)
Definition clearLastUpdate (dp : Datapoint) : Datapoint :=
  mkDatapoint (dp_ptr dp) (dp_address dp) (dp_length dp) 0 (dp_encode dp).

(** [VitoConnect::_onData(data, len, arg)].  [dp] is the datapoint object
    [cbArg->dp] points at, in its state at the time of the call; the result
    carries its state afterwards.  [now] is the clock read by
    [release_current]. *)
Definition _onData (data : list Z) (len : Z) (cbArg : CbArg) (dp : Datapoint)
    (q : SmartQueue.t) (now : Z)
    : list completion_effect * Datapoint * SmartQueue.t :=
  let '(effects, dp') :=
    if 0 <? dp_last_update dp then
      match cb_w cbArg, cb_d cbArg with
      | false, None => ([LogAwaitingConfirmation], dp)
      | true, _ => ([LogWriteCompleted], dp)
      | false, Some d =>
          if negb (len =? dp_length dp) then ([LogLengthMismatch], dp)
          else if memcmp_eq data d len then ([LogVerified], clearLastUpdate dp)
          else ([LogVerificationFailed], dp)
      end
    else if negb (cb_w cbArg) then ([Decode data len], dp)
    else ([], dp) in
  (effects, dp', SmartQueue.release_current q now).

(** [VitoConnect::_onError(error, arg)]; [has_cb] tells whether the user
    registered an error callback ([_onErrorCb]). *)
Definition _onError (error : Z) (has_cb : bool) (dp : Datapoint)
    (q : SmartQueue.t) (now : Z)
    : list completion_effect * Datapoint * SmartQueue.t :=
  (if has_cb then [ErrorCallback error] else [], dp,
   SmartQueue.release_current q now).

End VitoConnect.

(** ** Vocabulary of the statements *)

Import SmartQueue.

(** The age of a request at clock reading [now], as the code computes it. *)
Definition age (now : Z) (r : QueuedRequest) : Z := wsub now (enqueue_time r).

(** The retry throttle is active at [now]: the first test of [get_next]. *)
Definition throttled (s : SmartQueue.t) (now : Z) : bool :=
  (0 <? last_retry_time s) && (wsub now (last_retry_time s) <? RETRY_DELAY_MS).

(** The scheduler after [req] was pushed at the back of the queue of its
    class. *)
Definition pushed (s : SmartQueue.t) (req : QueuedRequest) : SmartQueue.t :=
  if is_write req
  then SmartQueue.mk (write_queue s ++ [req]) (read_queue s) (has_current s)
         (current_is_write s) (last_comm_time s) (last_retry_time s)
  else SmartQueue.mk (write_queue s) (read_queue s ++ [req]) (has_current s)
         (current_is_write s) (last_comm_time s) (last_retry_time s).

(** The queue of the class in flight, and of a given class. *)
Definition class_queue (s : SmartQueue.t) (write : bool) : list QueuedRequest :=
  if write then write_queue s else read_queue s.

(** What every reachable scheduler satisfies. *)
Record invariant (s : SmartQueue.t) : Prop := {
  inv_write_keys : NoDup (map key (write_queue s));
  inv_write_kind : Forall (fun r => is_write r = true) (write_queue s);
  inv_read_kind : Forall (fun r => is_write r = false) (read_queue s);
  inv_no_throttle_in_flight : has_current s = true -> last_retry_time s = 0
}.

(** *** Concrete schedulers and histories *)

(** The same baseline read handed to a fresh scheduler twice. *)
Definition twice_read : SmartQueue.t :=
  run init [CEnqueue 0x2306 1 false None 7 100; CEnqueue 0x2306 1 false None 7 100].

(** Reads of [n] distinct addresses, enqueued one after the other at
    100 ms; with 63 of them one slot is left, with 64 the store is full. *)
Definition reads_upto (n : nat) : list call :=
  map (fun i => CEnqueue (Z.of_nat i) 1 false None 7 100) (seq 0 n).

Definition nearly_full : SmartQueue.t := run init (reads_upto 63).

Definition full_store : SmartQueue.t :=
  Eval vm_compute in run init (reads_upto 64).

Definition sample_read : QueuedRequest := mkReq 0 1 false None 7 100.

(** A read enqueued at 1000 ms, and the scheduler once [get_next] has
    selected it. *)
Definition one_read : SmartQueue.t :=
  run init [CEnqueue 0x2306 1 false None 7 1000].

Definition read_selected : SmartQueue.t :=
  run init [CEnqueue 0x2306 1 false None 7 1000; CGetNext 1000 1000].

(** A write enqueued while that read is in flight. *)
Definition write_behind_read : SmartQueue.t :=
  run read_selected [CEnqueue 0x2323 1 true None 3 1010].

(** A history in which the 32-bit millisecond clock wraps: a first read is
    selected and released shortly before the wrap, a second one is selected,
    and the dispatcher gives it back with [retry_current] at the very
    millisecond the clock reads 0. *)
Definition before_wrap : SmartQueue.t :=
  run init [CEnqueue 0x2306 1 false None 7 4294966000;
            CGetNext 4294966100 4294966100;
            CRelease 4294967000;
            CEnqueue 0x2307 1 false None 8 4294967050;
            CGetNext 4294967100 4294967100].

Definition retried_at_zero : SmartQueue.t := retry_current before_wrap 0.

(** A transport that is ready, idle and accepting. *)
Definition ready_optolink : VitoConnect.Optolink :=
  VitoConnect.mkOptolink true 0 true.

(** *** Vocabulary of the producer *)

(** The key under which the scheduler files a read of datapoint [dp]. *)
Definition dp_key (dp : Datapoint) : Z * bool * Z :=
  (dp_address dp, false, VitoConnect.comp_id dp).

(** The baseline read pass 2 of [update] builds for the datapoint at index
    [i], and the reads for a run of datapoints starting at index [i]. *)
Definition baseline_read (clock : VitoConnect.site -> Z) (i : nat) (dp : Datapoint)
    : QueuedRequest :=
  mkReq (dp_address dp) (dp_length dp) false (Some (mkCbArg dp false 0 None))
    (VitoConnect.comp_id dp) (clock (VitoConnect.AtRead i)).

Fixpoint baseline_reads (clock : VitoConnect.site -> Z) (i : nat)
    (dps : list Datapoint) : list QueuedRequest :=
  match dps with
  | [] => []
  | dp :: rest => baseline_read clock i dp :: baseline_reads clock (S i) rest
  end.

(** The scheduler with [reqs] pushed at the back of the read queue. *)
Definition pushed_reads (q : SmartQueue.t) (reqs : list QueuedRequest) : SmartQueue.t :=
  SmartQueue.mk (write_queue q) (read_queue q ++ reqs) (has_current q)
    (current_is_write q) (last_comm_time q) (last_retry_time q).

(** A decision procedure for distinct keys. *)
Definition key_eqb (k1 k2 : Z * bool * Z) : bool :=
  let '(a1, w1, c1) := k1 in
  let '(a2, w2, c2) := k2 in
  (a1 =? a2) && Bool.eqb w1 w2 && (c1 =? c2).

Fixpoint distinct_keys (l : list (Z * bool * Z)) : bool :=
  match l with
  | [] => true
  | k :: rest => negb (existsb (key_eqb k) rest) && distinct_keys rest
  end.

(** 35 registered datapoints, none modified: addresses 0x2300 .. 0x2322,
    objects 16 bytes apart. *)
Definition points_35 : list Datapoint :=
  map (fun i => mkDatapoint (4096 + 16 * Z.of_nat i) (0x2300 + Z.of_nat i) 1 0
                  (fun _ => []))
      (seq 0 35).

(** A read selected at 1000 ms and then evicted by [cleanup_stale] while in
    flight: the in-flight flag is set and the read queue is empty. *)
Definition lost_front : SmartQueue.t := run read_selected [CCleanup 31001].

(** The transport call the dispatcher makes for a request whose callback
    argument is [cbArg]. *)
Definition push_of (req : QueuedRequest) (cbArg : CbArg) : VitoConnect.effect :=
  if is_write req
  then VitoConnect.OptolinkWrite (address req) (length req)
         (dp_encode (cb_dp cbArg) (length req)) cbArg
  else VitoConnect.OptolinkRead (address req) (length req) cbArg.

(** A datapoint to read and its completion context. *)
Definition sample_point : Datapoint := mkDatapoint 4096 0x2306 1 0 (fun _ => [7]).

Definition sample_cb : CbArg := mkCbArg sample_point false 0 None.

(** A read of that point, enqueued at 1000 ms and selected at 1100 ms. *)
Definition point_read_queued : SmartQueue.t :=
  run init [CEnqueue 0x2306 1 false (Some sample_cb) 0 1000].

Definition point_read_selected : SmartQueue.t :=
  run point_read_queued [CGetNext 1100 1100].

(** A datapoint with a local write pending since 500 ms, encoding to the
    byte 0x01, and the completion context of its verification read. *)
Definition modified_point : Datapoint :=
  mkDatapoint 8192 0x2323 1 500 (fun _ => [1]).

Definition verify_cb : CbArg := mkCbArg modified_point false 0 (Some [1]).

(** The completion [_onData] receives confirms a pending write: the
    datapoint has a write pending, the context is that of a verification
    read, and the bytes received are the bytes written, in the length of the
    datapoint. *)
Definition verified_write (data : list Z) (len : Z) (cbArg : CbArg)
    (dp : Datapoint) : Prop :=
  0 < dp_last_update dp /\ cb_w cbArg = false /\ len = dp_length dp /\
  exists d, cb_d cbArg = Some d /\
    firstn (Z.to_nat len) data = firstn (Z.to_nat len) d.

Definition verifies (data : list Z) (len : Z) (cbArg : CbArg)
    (dp : Datapoint) : bool :=
  (0 <? dp_last_update dp) && negb (cb_w cbArg) &&
  match cb_d cbArg with
  | Some d => (len =? dp_length dp) && VitoConnect.memcmp_eq data d len
  | None => false
  end.

(** The number of datapoints with a local write pending. *)
Definition modified_count (dps : list Datapoint) : nat :=
  List.length (filter (fun dp => negb (dp_last_update dp =? 0)) dps).

(** The write pass 1 of [update] builds for the datapoint at index [i]. *)
Definition write_request (clock : VitoConnect.site -> Z) (i : nat) (dp : Datapoint)
    : QueuedRequest :=
  mkReq (dp_address dp) (dp_length dp) true
    (Some (mkCbArg dp true (dp_last_update dp) None))
    (VitoConnect.comp_id dp) (clock (VitoConnect.AtWrite i)).




(** The calls the dispatcher and the completion handlers make on the
    scheduler: every call but [enqueue]. *)
Definition dispatcher_call (c : call) : bool :=
  match c with
  | CEnqueue _ _ _ _ _ _ => false
  | _ => true
  end.

(** 35 registered datapoints of which point 15 sits on the address of
    point 0, its object 4096 bytes further, so that both get the component
    identifier 0. *)
Definition colliding_points_35 : list Datapoint :=
  map (fun i => if (i =? 15)%nat
                then mkDatapoint 8192 0x2300 1 0 (fun _ => [])
                else mkDatapoint (4096 + 16 * Z.of_nat i) (0x2300 + Z.of_nat i) 1 0
                       (fun _ => []))
      (seq 0 35).

(** 35 registered datapoints of which the first 32 have a write pending. *)
Definition modified_points_35 : list Datapoint :=
  map (fun i => mkDatapoint (4096 + 16 * Z.of_nat i) (0x2300 + Z.of_nat i) 1
                  (if (i <? 32)%nat then 500 else 0) (fun _ => [1]))
      (seq 0 35).

(** The read queue holds a read whose callback argument designates the
    datapoint object [dp]. *)
Definition holds_read_of (dp : Datapoint) (q : SmartQueue.t) : bool :=
  existsb (fun r => match callback_arg r with
                    | Some c => (dp_ptr (cb_dp c) =? dp_ptr dp) && negb (cb_w c)
                    | None => false
                    end)
          (read_queue q).

(** * Properties *)

(** ** Small facts used throughout *)


Lemma cleanup_filter now q :
  cleanup now q =
  filter (fun r => negb (REQUEST_TIMEOUT_MS <? wsub now (enqueue_time r))) q.
Proof.
  induction q as [|r q IH]; simpl; [reflexivity|].
  destruct (REQUEST_TIMEOUT_MS <? wsub now (enqueue_time r)); simpl; now rewrite IH.
Qed.

Lemma matches_key r addr write ct :
  matches r addr write ct = true <-> key r = (addr, write, ct).
Proof.
  unfold matches, key. rewrite !andb_true_iff, !Z.eqb_eq, Bool.eqb_true_iff.
  split.
  - intros [[-> ->] ->]. reflexivity.
  - intros H. injection H as -> -> ->. auto.
Qed.

Lemma existsb_matches_key q addr write ct :
  existsb (fun r => matches r addr write ct) q = true <->
  In (addr, write, ct) (map key q).
Proof.
  rewrite existsb_exists, in_map_iff. split.
  - intros (r & Hin & Hm). exists r. split; [now apply matches_key | assumption].
  - intros (r & Hk & Hin). exists r. split; [assumption | now apply matches_key].
Qed.

(** ** Admission *)

Lemma enqueue_full s addr len write arg ct now :
  (MAX_QUEUE_SIZE <= size s)%nat ->
  enqueue s addr len write arg ct now = (false, s).
Proof.
  unfold enqueue, size. intro Hfull. apply Nat.leb_le in Hfull. now rewrite Hfull.
Qed.

Lemma enqueue_merged s addr len write arg ct now :
  (size s < MAX_QUEUE_SIZE)%nat ->
  dedup_checked s write && has_pending s addr write ct = true ->
  enqueue s addr len write arg ct now = (true, s).
Proof.
  unfold enqueue, size. intros Hroom Hdup. apply Nat.leb_gt in Hroom.
  now rewrite Hroom, Hdup.
Qed.

Lemma enqueue_pushed s addr len write arg ct now :
  (size s < MAX_QUEUE_SIZE)%nat ->
  dedup_checked s write && has_pending s addr write ct = false ->
  enqueue s addr len write arg ct now =
  (true, pushed s (mkReq addr len write arg ct now)).
Proof.
  unfold enqueue, size, pushed. intros Hroom Hnew. apply Nat.leb_gt in Hroom.
  rewrite Hroom, Hnew. now destruct write.
Qed.

(** C3. [enqueue] on a store whose total count [size()] (the two class
    queues; the in-flight request is the front of one of them) has reached
    [MAX_QUEUE_SIZE = 64] returns [false] and leaves the scheduler as it
    was; below the limit, a request that the deduplication step does not
    merge is pushed at the back of the queue of its class, stamped with the
    clock reading, the call returns [true] and nothing else changes. *)
Theorem enqueue_full_or_appended s addr len write arg ct now :
  MAX_QUEUE_SIZE = 64%nat /\
  ((MAX_QUEUE_SIZE <= size s)%nat ->
     enqueue s addr len write arg ct now = (false, s)) /\
  ((size s < MAX_QUEUE_SIZE)%nat ->
   dedup_checked s write && has_pending s addr write ct = false ->
     let req := mkReq addr len write arg ct now in
     let s' := snd (enqueue s addr len write arg ct now) in
     fst (enqueue s addr len write arg ct now) = true /\
     enqueue_time req = now /\
     write_queue s' = (if write then write_queue s ++ [req] else write_queue s) /\
     read_queue s' = (if write then read_queue s else read_queue s ++ [req]) /\
     has_current s' = has_current s /\
     current_is_write s' = current_is_write s /\
     last_comm_time s' = last_comm_time s /\
     last_retry_time s' = last_retry_time s).
Proof.
  split; [reflexivity|]. split.
  - apply enqueue_full.
  - intros Hroom Hnew. cbv zeta.
    rewrite (enqueue_pushed _ _ _ _ _ _ _ Hroom Hnew).
    unfold pushed. destruct write; cbn; repeat split.
Qed.

Lemma enqueue_full_or_appended_witness :
  enqueue full_store 0x2323 1 true None 3 500 = (false, full_store) /\
  write_queue (snd (enqueue init 0x2323 1 true None 3 500)) =
    [mkReq 0x2323 1 true None 3 500].
Proof.
  split.
  - apply (enqueue_full_or_appended full_store 0x2323 1 true None 3 500).
    apply Nat.leb_le. reflexivity.
  - apply (enqueue_full_or_appended init 0x2323 1 true None 3 500).
    + apply Nat.ltb_lt. reflexivity.
    + reflexivity.
Defined.

(** ** Idle scheduler *)

(** C10. With nothing in flight, [retry_current] and [release_current]
    return the scheduler they were given, every field as it was; so the
    dispatcher step on a transport that is not ready, which calls
    [retry_current] unconditionally, leaves an idle scheduler untouched and
    pushes nothing. *)
Theorem idle_retry_release_noop s now :
  has_current s = false ->
  retry_current s now = s /\
  release_current s now = s /\
  (forall o t2,
     VitoConnect.is_ready o = false -> VitoConnect.loop o s now t2 = ([], s)).
Proof.
  intro Hidle.
  assert (Hretry : retry_current s now = s)
    by (unfold retry_current; now rewrite Hidle).
  repeat split.
  - exact Hretry.
  - unfold release_current. now rewrite Hidle.
  - intros o t2 Hnot. unfold VitoConnect.loop. now rewrite Hnot, Hretry.
Qed.

Lemma idle_retry_release_noop_witness :
  retry_current full_store 777 = full_store /\
  release_current full_store 777 = full_store.
Proof.
  destruct (idle_retry_release_noop full_store 777) as (Hretry & Hrelease & _).
  - reflexivity.
  - split; assumption.
Defined.

(** ** Pacing *)

Lemma get_next_throttled s now now_rel :
  throttled s now = true -> get_next s now now_rel = (None, s).
Proof. unfold throttled, get_next. now intros ->. Qed.

Lemma get_next_idle_paced s now now_rel :
  has_current s = false ->
  wsub now (last_comm_time s) < INTER_COMM_DELAY_MS ->
  get_next s now now_rel = (None, s).
Proof.
  intros Hidle Hpace. unfold get_next.
  destruct (_ && _); [reflexivity|].
  rewrite Hidle. apply Z.ltb_lt in Hpace. now rewrite Hpace.
Qed.



(** ** The invariant of reachable schedulers *)

Section ListFacts.

Context {A B : Type} (f : A -> B).

Lemma NoDup_map_tl (l : list A) : NoDup (map f l) -> NoDup (map f (tl l)).
Proof.
  destruct l as [|a l]; simpl; [trivial|]. intro H. now inversion H.
Qed.

Lemma NoDup_map_filter (p : A -> bool) (l : list A) :
  NoDup (map f l) -> NoDup (map f (filter p l)).
Proof.
  induction l as [|a l IH]; simpl; [trivial|].
  intro H. inversion H as [|? ? Hnotin Hrest]; subst.
  destruct (p a); simpl; [|now apply IH].
  constructor; [|now apply IH].
  intro Hin. apply Hnotin. apply in_map_iff in Hin as (x & Hx & Hin).
  apply filter_In in Hin as [Hin _]. apply in_map_iff. now exists x.
Qed.

Lemma NoDup_map_snoc (l : list A) (a : A) :
  NoDup (map f l) -> ~ In (f a) (map f l) -> NoDup (map f (l ++ [a])).
Proof.
  induction l as [|x l IH]; simpl; intros Hnd Hnotin.
  - constructor; [tauto | constructor].
  - inversion Hnd as [|? ? Hx Hrest]; subst. constructor.
    + rewrite map_app, in_app_iff. simpl. intros [Hin | [Heq | []]]; [tauto|].
      apply Hnotin. now left.
    + apply IH; [assumption|]. intro Hin. apply Hnotin. now right.
Qed.

End ListFacts.

Lemma Forall_tl {A} (P : A -> Prop) (l : list A) : Forall P l -> Forall P (tl l).
Proof. destruct l; simpl; [trivial|]. intro H. now inversion H. Qed.

Lemma Forall_cleanup (P : QueuedRequest -> Prop) now q :
  Forall P q -> Forall P (cleanup now q).
Proof.
  rewrite cleanup_filter, !Forall_forall. intros H x Hin.
  apply filter_In in Hin as [Hin _]. now apply H.
Qed.

Create HintDb queue discriminated.
#[local] Hint Resolve NoDup_map_tl NoDup_map_filter Forall_tl Forall_cleanup : queue.

Lemma has_pending_false_fresh s addr write ct :
  has_pending s addr write ct = false ->
  ~ In (addr, write, ct) (map key (class_queue s write)).
Proof.
  unfold has_pending, class_queue. intros Hpend Hin.
  apply existsb_matches_key in Hin. now rewrite Hin in Hpend.
Qed.

Lemma invariant_init : invariant init.
Proof. split; cbn; try constructor; discriminate. Qed.

Lemma invariant_pushed s addr len write arg ct now :
  invariant s ->
  dedup_checked s write && has_pending s addr write ct = false ->
  invariant (pushed s (mkReq addr len write arg ct now)).
Proof.
  intros [Hkeys Hwk Hrk Hthr] Hnew. unfold pushed. cbn [is_write].
  destruct write.
  - cbn in Hnew. split; cbn; try assumption.
    + apply NoDup_map_snoc; [assumption|].
      apply (has_pending_false_fresh s addr true ct Hnew).
    + apply Forall_app. split; [assumption|]. now repeat constructor.
  - split; cbn; try assumption.
    apply Forall_app. split; [assumption|]. now repeat constructor.
Qed.

Lemma enqueue_cases s addr len write arg ct now :
  enqueue s addr len write arg ct now = (false, s) /\
    (MAX_QUEUE_SIZE <= size s)%nat \/
  enqueue s addr len write arg ct now = (true, s) /\
    (size s < MAX_QUEUE_SIZE)%nat /\
    dedup_checked s write && has_pending s addr write ct = true \/
  enqueue s addr len write arg ct now =
    (true, pushed s (mkReq addr len write arg ct now)) /\
    (size s < MAX_QUEUE_SIZE)%nat /\
    dedup_checked s write && has_pending s addr write ct = false.
Proof.
  destruct (Nat.le_gt_cases MAX_QUEUE_SIZE (size s)) as [Hfull|Hroom].
  - left. split; [now apply enqueue_full | assumption].
  - right.
    destruct (dedup_checked s write && has_pending s addr write ct) eqn:Hdup.
    + left. repeat split; try assumption. now apply enqueue_merged.
    + right. repeat split; try assumption. now apply enqueue_pushed.
Qed.

Lemma invariant_enqueue s addr len write arg ct now :
  invariant s -> invariant (snd (enqueue s addr len write arg ct now)).
Proof.
  intro Hinv.
  destruct (enqueue_cases s addr len write arg ct now)
    as [[-> _] | [[-> _] | [-> [_ Hnew]]]]; cbn [snd]; try assumption.
  now apply invariant_pushed.
Qed.

Lemma invariant_release s now : invariant s -> invariant (release_current s now).
Proof.
  intro Hinv. unfold release_current.
  destruct (has_current s); cbn [negb]; [|exact Hinv].
  destruct Hinv as [Hkeys Hwk Hrk _].
  split; cbn; try discriminate;
    destruct (current_is_write s); auto with queue.
Qed.

Lemma invariant_retry s now : invariant s -> invariant (retry_current s now).
Proof.
  intro Hinv. unfold retry_current.
  destruct (has_current s); cbn [negb]; [|exact Hinv].
  destruct Hinv as [Hkeys Hwk Hrk _].
  split; cbn; try assumption. discriminate.
Qed.

Lemma invariant_cleanup s now : invariant s -> invariant (cleanup_stale s now).
Proof.
  intros [Hkeys Hwk Hrk Hthr]. unfold cleanup_stale.
  split; cbn; auto with queue.
  rewrite cleanup_filter. auto with queue.
Qed.

Lemma invariant_get_next s now now_rel :
  invariant s -> invariant (snd (get_next s now now_rel)).
Proof.
  intro Hinv. unfold get_next.
  destruct (_ && _); [assumption|].
  destruct (_ && _); [assumption|].
  destruct (has_current s) eqn:Hcur.
  - destruct (get_current_ptr s) as [cur|].
    + destruct (_ <? _); cbn [snd]; [|assumption].
      pose proof (invariant_release s now_rel Hinv) as [Hkeys Hwk Hrk _].
      unfold set_last_retry_time. split; cbn; try assumption. reflexivity.
    + destruct Hinv as [Hkeys Hwk Hrk _]. split; cbn; try assumption. discriminate.
  - destruct Hinv as [Hkeys Hwk Hrk _].
    destruct (write_queue s) as [|w wq] eqn:Hw.
    + destruct (read_queue s) as [|r rq] eqn:Hr; cbn [snd].
      * split; try rewrite Hw; try rewrite Hr; try assumption.
        rewrite Hcur. discriminate.
      * unfold select. split; cbn; try rewrite Hw; try rewrite Hr; auto.
    + unfold select. split; cbn; try rewrite Hw; auto.
Qed.

Lemma invariant_step s c : invariant s -> invariant (step s c).
Proof.
  destruct c; cbn [step];
    auto using invariant_enqueue, invariant_get_next, invariant_retry,
               invariant_release, invariant_cleanup.
Qed.

Lemma reachable_invariant s : reachable s -> invariant s.
Proof.
  induction 1 as [|s c _ IH]; [apply invariant_init | now apply invariant_step].
Qed.

Lemma reachable_run cs : forall s, reachable s -> reachable (run s cs).
Proof.
  induction cs as [|c cs IH]; intros s Hs; cbn; [assumption|].
  apply IH. now constructor.
Qed.

Lemma full_store_reachable : reachable full_store /\ size full_store = MAX_QUEUE_SIZE.
Proof.
  assert (Hrun : run init (reads_upto 64) = full_store) by (vm_compute; reflexivity).
  split; [|reflexivity]. rewrite <- Hrun. apply reachable_run, reach_init.
Qed.

(** ** Deduplication *)

Lemma size_pushed s req : size (pushed s req) = S (size s).
Proof.
  unfold pushed, size. destruct (is_write req); cbn; rewrite length_app; cbn; lia.
Qed.

Lemma matches_self addr len write arg ct now :
  matches (mkReq addr len write arg ct now) addr write ct = true.
Proof. apply matches_key. reflexivity. Qed.

Lemma has_pending_pushed s addr len write arg ct now :
  has_pending (pushed s (mkReq addr len write arg ct now)) addr write ct = true.
Proof.
  unfold has_pending.
  replace (existsb _ _) with true; [reflexivity|]. symmetry.
  unfold pushed. cbn [is_write].
  destruct write; cbn [write_queue read_queue];
    rewrite existsb_app; cbn [existsb]; rewrite matches_self;
    now rewrite orb_true_r.
Qed.

Lemma dedup_checked_pushed s addr len write arg ct now :
  write = true \/ (10 <= List.length (read_queue s))%nat ->
  dedup_checked (pushed s (mkReq addr len write arg ct now)) write = true.
Proof.
  unfold dedup_checked, pushed. cbn [is_write].
  destruct write; [reflexivity|]. intros [Habs|Hlen]; [discriminate|].
  cbn [orb read_queue]. apply Nat.ltb_lt. rewrite length_app. cbn [List.length]. lia.
Qed.

Lemma enqueue_twice s addr len1 len2 write arg1 arg2 ct t1 t2 :
  write = true \/ (10 <= List.length (read_queue s))%nat ->
  (size s + 1 < MAX_QUEUE_SIZE)%nat ->
  let r1 := enqueue s addr len1 write arg1 ct t1 in
  let r2 := enqueue (snd r1) addr len2 write arg2 ct t2 in
  fst r1 = true /\ r2 = (true, snd r1) /\
  (size (snd r1) <= size s + 1)%nat /\
  (has_pending s addr write ct = false -> size (snd r1) = (size s + 1)%nat).
Proof.
  intros Hguard Hroom r1 r2. subst r2 r1.
  destruct (enqueue_cases s addr len1 write arg1 ct t1)
    as [[_ Hfull] | [[-> [Hlt Hdup]] | [-> [Hlt Hnew]]]]; cbn [fst snd].
  - lia.
  - repeat split; try lia.
    + now apply enqueue_merged.
    + intro Hpend. rewrite Hpend, andb_false_r in Hdup. discriminate.
  - rewrite size_pushed. repeat split; try lia.
    apply enqueue_merged; [rewrite size_pushed; lia|].
    now rewrite dedup_checked_pushed, has_pending_pushed.
Qed.

Lemma filter_all {A} (p : A -> bool) l :
  Forall (fun x => p x = true) l -> filter p l = l.
Proof.
  induction 1 as [|x l Hx _ IH]; cbn; [reflexivity|]. now rewrite Hx, IH.
Qed.

Lemma filter_none {A} (p : A -> bool) l :
  Forall (fun x => p x = false) l -> filter p l = [].
Proof.
  induction 1 as [|x l Hx _ IH]; cbn; [reflexivity|]. now rewrite Hx, IH.
Qed.

(** C1, as the code has it.  In every reachable scheduler the write-kind
    requests held by the two queues (the request in flight is the front of
    one of them) have pairwise distinct (address, kind, component type)
    keys.  And for a write, or for a read handed to a read queue that
    already holds at least 10 requests, two calls of [enqueue] in a row with
    the same key, the store staying below its capacity after the first,
    both return [true], the second one leaves the scheduler as the first
    left it, and the store grows by at most one request, by exactly one when
    the key was not pending. *)
Theorem dedup_checked_admission s :
  reachable s ->
  NoDup (map key (filter is_write (write_queue s ++ read_queue s))) /\
  (forall addr len1 len2 write arg1 arg2 ct t1 t2,
     write = true \/ (10 <= List.length (read_queue s))%nat ->
     (size s + 1 < MAX_QUEUE_SIZE)%nat ->
     let r1 := enqueue s addr len1 write arg1 ct t1 in
     let r2 := enqueue (snd r1) addr len2 write arg2 ct t2 in
     fst r1 = true /\ r2 = (true, snd r1) /\
     (size (snd r1) <= size s + 1)%nat /\
     (has_pending s addr write ct = false -> size (snd r1) = (size s + 1)%nat)).
Proof.
  intro Hreach. split.
  - destruct (reachable_invariant s Hreach) as [Hkeys Hwk Hrk _].
    rewrite filter_app, (filter_all _ _ Hwk), (filter_none _ _ Hrk), app_nil_r.
    exact Hkeys.
  - intros. now apply enqueue_twice.
Qed.

Lemma dedup_checked_admission_witness :
  let r1 := enqueue init 0x2323 1 true None 3 500 in
  enqueue (snd r1) 0x2323 1 true None 3 600 = (true, snd r1) /\
  size (snd r1) = 1%nat.
Proof.
  destruct (dedup_checked_admission init reach_init) as [_ Htwice].
  destruct (Htwice 0x2323 1 1 true None None 3 500 600) as (_ & Hsnd & _ & Hsize).
  - now left.
  - apply Nat.ltb_lt. reflexivity.
  - cbv zeta. split; [exact Hsnd | apply Hsize; reflexivity].
Defined.

(** C1, as stated, fails.  A baseline read handed twice to a fresh
    scheduler is stored twice: the read queue holds fewer than 11 requests,
    so [enqueue] skips the scan.  And with 63 requests stored, the second of
    two identical writes is refused for lack of room instead of being
    reported as already queued. *)
Lemma duplicate_read_stored_twice :
  reachable twice_read /\
  size twice_read = 2%nat /\
  map key (read_queue twice_read) = [(0x2306, false, 7); (0x2306, false, 7)] /\
  ~ NoDup (map key (write_queue twice_read ++ read_queue twice_read)) /\
  reachable nearly_full /\
  size nearly_full = 63%nat /\
  (let r1 := enqueue nearly_full 0x2323 1 true None 3 500 in
   fst r1 = true /\ fst (enqueue (snd r1) 0x2323 1 true None 3 600) = false).
Proof.
  split; [apply reachable_run, reach_init|].
  split; [reflexivity|]. split; [reflexivity|].
  split.
  { cbn. intro H. inversion H as [|? ? Hnotin _]; subst. apply Hnotin. now left. }
  split; [apply reachable_run, reach_init|].
  split; [reflexivity|]. split; reflexivity.
Qed.

(** ** Selection *)

Lemma get_next_some s now now_rel req s' :
  get_next s now now_rel = (Some req, s') ->
  has_current s' = true /\
  get_current_ptr s' = Some req /\
  write_queue s' = write_queue s /\ read_queue s' = read_queue s.
Proof.
  unfold get_next.
  destruct (_ && _); [discriminate|].
  destruct (_ && _); [discriminate|].
  destruct (has_current s) eqn:Hcur.
  - destruct (get_current_ptr s) as [cur|] eqn:Hptr; [|discriminate].
    destruct (_ <? _); [discriminate|].
    intro H. injection H as <- <-. auto.
  - destruct (write_queue s) as [|w wq] eqn:Hw.
    + destruct (read_queue s) as [|r rq] eqn:Hr; [discriminate|].
      intro H. injection H as <- <-. unfold select, get_current_ptr. cbn.
      rewrite Hw, Hr. auto.
    + intro H. injection H as <- <-. unfold select, get_current_ptr. cbn.
      rewrite Hw. auto.
Qed.




(** ** Timeout of the request in flight *)

Lemma release_current_front s now req :
  has_current s = true ->
  get_current_ptr s = Some req ->
  release_current s now =
    SmartQueue.mk (if current_is_write s then tl (write_queue s) else write_queue s)
      (if current_is_write s then read_queue s else tl (read_queue s))
      false (current_is_write s) now 0 /\
  class_queue s (current_is_write s) =
    req :: class_queue (release_current s now) (current_is_write s).
Proof.
  intros Hcur Hptr. unfold release_current, class_queue. rewrite Hcur. cbn [negb].
  split; [reflexivity|].
  unfold get_current_ptr in Hptr. rewrite Hcur in Hptr. cbn [negb] in Hptr.
  destruct (current_is_write s); cbn [tl write_queue read_queue].
  - destruct (write_queue s); [discriminate|]. cbn in Hptr |- *. congruence.
  - destruct (read_queue s); [discriminate|]. cbn in Hptr |- *. congruence.
Qed.

(** C4. In a reachable scheduler with a request in flight whose age at the
    clock reading of [get_next] exceeds [REQUEST_TIMEOUT_MS = 30000], the
    call returns [nullptr] and releases the request: it is taken off the
    front of the queue of its class, the other queue is untouched, nothing is
    in flight any more, the retry throttle is off and the release time is
    recorded. *)
Theorem get_next_times_out s now now_rel cur :
  reachable s ->
  get_current_ptr s = Some cur ->
  REQUEST_TIMEOUT_MS < age now cur ->
  REQUEST_TIMEOUT_MS = 30000 /\
  fst (get_next s now now_rel) = None /\
  let s' := snd (get_next s now now_rel) in
  s' = set_last_retry_time (release_current s now_rel) 0 /\
  has_current s' = false /\
  class_queue s (current_is_write s) = cur :: class_queue s' (current_is_write s) /\
  class_queue s' (negb (current_is_write s)) =
    class_queue s (negb (current_is_write s)) /\
  last_comm_time s' = now_rel /\
  last_retry_time s' = 0.
Proof.
  intros Hreach Hptr Hold. split; [reflexivity|].
  assert (Hcur : has_current s = true).
  { unfold get_current_ptr in Hptr. destruct (has_current s); [reflexivity|discriminate]. }
  pose proof (inv_no_throttle_in_flight s (reachable_invariant s Hreach) Hcur) as Hthr.
  assert (Hnext : get_next s now now_rel =
                  (None, set_last_retry_time (release_current s now_rel) 0)).
  { unfold get_next. rewrite Hthr, Hcur, Hptr. cbn [Z.ltb Z.compare andb negb].
    unfold age in Hold. apply Z.ltb_lt in Hold. now rewrite Hold. }
  rewrite Hnext. cbn [fst snd]. split; [reflexivity|]. split; [reflexivity|].
  destruct (release_current_front s now_rel cur Hcur Hptr) as [Hrel Hfront].
  rewrite Hfront, Hrel. unfold set_last_retry_time, class_queue. cbn.
  destruct (current_is_write s); cbn; auto.
Qed.

Lemma get_next_times_out_witness :
  fst (get_next read_selected 31001 31002) = None /\
  read_queue (snd (get_next read_selected 31001 31002)) = [].
Proof.
  destruct (get_next_times_out read_selected 31001 31002
              (mkReq 0x2306 1 false None 7 1000))
    as (_ & Hnone & _ & _ & Hfront & _).
  - apply reachable_run, reach_init.
  - reflexivity.
  - reflexivity.
  - split; [exact Hnone | reflexivity].
Defined.

(** ** Eviction of stale requests *)

Lemma in_cleanup now q r :
  In r (cleanup now q) <-> In r q /\ age now r <= REQUEST_TIMEOUT_MS.
Proof.
  rewrite cleanup_filter, filter_In, negb_true_iff, Z.ltb_ge. reflexivity.
Qed.






(** ** Retry *)

(** [retry_current] with a request in flight: the queues are kept, the flag
    is cleared, the clock reading is stored. *)
Lemma retry_current_in_flight s now :
  has_current s = true ->
  retry_current s now =
  SmartQueue.mk (write_queue s) (read_queue s) false (current_is_write s)
    (last_comm_time s) now.
Proof. unfold retry_current. now intros ->. Qed.

(** The throttle after a retry at a non-zero clock reading: [get_next]
    returns [nullptr] and changes nothing for as long as the unsigned
    difference to the retry time is below [RETRY_DELAY_MS]. *)
Lemma get_next_after_retry s t_retry now now_rel :
  has_current s = true ->
  0 < t_retry ->
  wsub now t_retry < RETRY_DELAY_MS ->
  get_next (retry_current s t_retry) now now_rel = (None, retry_current s t_retry).
Proof.
  intros Hcur Hpos Hdelay. apply get_next_throttled.
  rewrite (retry_current_in_flight _ _ Hcur). unfold throttled.
  cbn [last_retry_time]. apply Z.ltb_lt in Hpos, Hdelay. now rewrite Hpos, Hdelay.
Qed.

(** C5 on the history [before_wrap]: a read is in flight, [retry_current]
    is called while [millis()] reads 0, and [get_next] called 10 ms later,
    well inside the 50 ms retry delay, hands the request out again.  The
    stored retry time 0 is what [get_next] takes for no retry pending. *)
Theorem retry_at_clock_zero_not_throttled :
  reachable before_wrap /\
  get_current_ptr before_wrap = Some (mkReq 0x2307 1 false None 8 4294967050) /\
  has_current retried_at_zero = false /\
  read_queue retried_at_zero = read_queue before_wrap /\
  last_retry_time retried_at_zero = 0 /\
  wsub 10 0 < RETRY_DELAY_MS /\
  fst (get_next retried_at_zero 10 10) = Some (mkReq 0x2307 1 false None 8 4294967050).
Proof.
  split; [apply reachable_run, reach_init|].
  repeat split.
Qed.

(** ** Dispatcher *)

(** C9. When the transport is ready and [get_next] hands out a request
    whose callback argument is [nullptr], the dispatcher step logs the
    address, calls [release_current] and returns: no read or write reaches
    the transport, the request is removed from the front of its queue,
    nothing is in flight and no retry is scheduled. *)
Theorem loop_drops_null_callback o q t1 t2 req q1 :
  VitoConnect.is_ready o = true ->
  get_next q t1 t2 = (Some req, q1) ->
  callback_arg req = None ->
  let q2 := release_current q1 t2 in
  VitoConnect.loop o q t1 t2 = ([VitoConnect.LogInvalidCallbackArg (address req)], q2) /\
  class_queue q (current_is_write q1) = req :: class_queue q2 (current_is_write q1) /\
  class_queue q2 (negb (current_is_write q1)) =
    class_queue q (negb (current_is_write q1)) /\
  has_current q2 = false /\
  last_retry_time q2 = 0 /\
  (forall now, throttled q2 now = false).
Proof.
  intros Hready Hnext Hnull. cbv zeta.
  destruct (get_next_some _ _ _ _ _ Hnext) as (Hcur & Hptr & Hw & Hr).
  destruct (release_current_front q1 t2 req Hcur Hptr) as [Hrel Hfront].
  split.
  - unfold VitoConnect.loop. now rewrite Hready, Hnext, Hnull.
  - split.
    + rewrite <- Hfront. unfold class_queue. now rewrite Hw, Hr.
    + rewrite Hrel. unfold class_queue, throttled. cbn.
      destruct (current_is_write q1); cbn; rewrite ?Hw, ?Hr; auto.
Qed.

Lemma loop_drops_null_callback_witness :
  VitoConnect.loop ready_optolink one_read 1100 1101 =
    ([VitoConnect.LogInvalidCallbackArg 0x2306],
     SmartQueue.mk [] [] false false 1101 0).
Proof.
  apply (loop_drops_null_callback ready_optolink one_read 1100 1101
           (mkReq 0x2306 1 false None 7 1000)
           (snd (get_next one_read 1100 1101))).
  - reflexivity.
  - reflexivity.
  - reflexivity.
Defined.

(** ** Producer *)

Lemma has_pending_iff s addr write ct :
  has_pending s addr write ct = true <->
  In (addr, write, ct) (map key (class_queue s write)).
Proof.
  split.
  - unfold has_pending, class_queue.
    destruct (existsb _ _) eqn:Hscan; [intros _; now apply existsb_matches_key|].
    destruct (has_current s && Bool.eqb (current_is_write s) write) eqn:Hcur;
      [|discriminate].
    apply andb_true_iff in Hcur as [Hcur Hcls]. apply Bool.eqb_prop in Hcls.
    unfold get_current_ptr. rewrite Hcur, Hcls. cbn [negb].
    destruct write; (destruct (_ s) as [|front q]; [discriminate|]);
      cbn; intro Hm; left; now apply matches_key.
  - intro Hin. apply Bool.not_false_iff_true. intro Hpend.
    now apply (has_pending_false_fresh s addr write ct Hpend).
Qed.

Lemma key_baseline_reads clock i dps :
  map key (baseline_reads clock i dps) = map dp_key dps.
Proof.
  revert i. induction dps as [|dp dps IH]; intro i; cbn; [reflexivity|].
  now rewrite IH.
Qed.

Lemma callback_arg_baseline_reads clock i dps :
  map callback_arg (baseline_reads clock i dps) =
  map (fun dp => Some (mkCbArg dp false 0 None)) dps.
Proof.
  revert i. induction dps as [|dp dps IH]; intro i; cbn; [reflexivity|].
  now rewrite IH.
Qed.

Lemma pushed_reads_nil q : pushed_reads q [] = q.
Proof. destruct q. unfold pushed_reads. cbn. now rewrite app_nil_r. Qed.

Lemma pushed_reads_cons q req reqs :
  is_write req = false ->
  pushed_reads (pushed q req) reqs = pushed_reads q (req :: reqs).
Proof.
  intro Hread. unfold pushed_reads, pushed. rewrite Hread. cbn.
  now rewrite <- app_assoc.
Qed.

Lemma enqueue_baseline_read clock q i dp :
  (size q < MAX_QUEUE_SIZE)%nat ->
  ~ In (dp_key dp) (map key (read_queue q)) ->
  enqueue q (dp_address dp) (dp_length dp) false (Some (mkCbArg dp false 0 None))
    (VitoConnect.comp_id dp) (clock (VitoConnect.AtRead i)) =
  (true, pushed q (baseline_read clock i dp)).
Proof.
  intros Hroom Hfresh. apply enqueue_pushed; [assumption|].
  apply andb_false_iff. right. apply Bool.not_true_iff_false.
  intro Hpend. apply has_pending_iff in Hpend. now apply Hfresh.
Qed.

(** Pass 2 on a scheduler with room for the datapoints that remain, none of
    which is queued as a read yet: the reads are pushed in order until the
    list ends or the batch is full. *)
Lemma enqueue_reads_batch clock dps :
  forall q i processed,
    NoDup (map dp_key dps) ->
    (forall dp, In dp dps -> ~ In (dp_key dp) (map key (read_queue q))) ->
    (size q + List.length dps <= MAX_QUEUE_SIZE)%nat ->
    (processed < VitoConnect.BATCH_SIZE)%nat ->
    VitoConnect.enqueue_reads clock q i processed dps =
    if (processed + List.length dps <? VitoConnect.BATCH_SIZE)%nat
    then (pushed_reads q (baseline_reads clock i dps), None)
    else (pushed_reads q
            (baseline_reads clock i
               (firstn (VitoConnect.BATCH_SIZE - processed) dps)),
          Some (i + (VitoConnect.BATCH_SIZE - processed))%nat).
Proof.
  induction dps as [|dp rest IH]; intros q i processed Hnd Hfresh Hroom Hp.
  - cbn [VitoConnect.enqueue_reads List.length].
    rewrite Nat.add_0_r. apply Nat.ltb_lt in Hp. rewrite Hp.
    now rewrite pushed_reads_nil.
  - cbn [VitoConnect.enqueue_reads]. cbn [List.length] in Hroom |- *.
    inversion Hnd as [|? ? Hhead Hrest]; subst.
    rewrite (enqueue_baseline_read clock q i dp);
      [|lia | apply Hfresh; now left].
    cbn [negb].
    assert (Hbig : (processed + S (List.length rest) <? VitoConnect.BATCH_SIZE)%nat
                   = (S processed + List.length rest <? VitoConnect.BATCH_SIZE)%nat)
      by (f_equal; lia).
    rewrite Hbig. clear Hbig.
    destruct (Nat.leb_spec VitoConnect.BATCH_SIZE (S processed)) as [Hfull|Hmore].
    + assert (Hlast : (VitoConnect.BATCH_SIZE - processed = 1)%nat) by lia.
      rewrite Hlast.
      destruct (Nat.ltb_spec (S processed + List.length rest) VitoConnect.BATCH_SIZE);
        [lia|].
      cbn [firstn baseline_reads]. rewrite <- pushed_reads_cons by reflexivity.
      rewrite pushed_reads_nil. f_equal. f_equal. lia.
    + rewrite IH; try assumption.
      * assert (Hsub : (VitoConnect.BATCH_SIZE - processed
                        = S (VitoConnect.BATCH_SIZE - S processed))%nat) by lia.
        rewrite Hsub. cbn [firstn baseline_reads].
        rewrite !pushed_reads_cons by reflexivity.
        destruct (Nat.ltb_spec (S processed + List.length rest)
                    VitoConnect.BATCH_SIZE); [reflexivity|].
        f_equal. f_equal. lia.
      * intros dp' Hin. unfold pushed. cbn [baseline_read is_write read_queue].
        rewrite map_app, in_app_iff. cbn. intros [Hold | [Hsame | []]].
        -- apply (Hfresh dp'); [now right | assumption].
        -- apply Hhead. change (dp_key dp = dp_key dp') in Hsame.
           rewrite Hsame. now apply in_map.
      * rewrite size_pushed. lia.
Qed.

Lemma enqueue_writes_unmodified clock dps :
  Forall (fun dp => dp_last_update dp = 0) dps ->
  forall q i, VitoConnect.enqueue_writes clock q i dps = q.
Proof.
  induction 1 as [|dp rest Hdp _ IH]; intros q i; cbn; [reflexivity|].
  rewrite Hdp. cbn. apply IH.
Qed.

Lemma key_eqb_eq k1 k2 : key_eqb k1 k2 = true <-> k1 = k2.
Proof.
  destruct k1 as [[a1 w1] c1], k2 as [[a2 w2] c2]. unfold key_eqb.
  rewrite !andb_true_iff, !Z.eqb_eq, Bool.eqb_true_iff. split.
  - intros [[-> ->] ->]. reflexivity.
  - intro H. injection H as -> -> ->. auto.
Qed.

Lemma distinct_keys_NoDup l : distinct_keys l = true -> NoDup l.
Proof.
  induction l as [|k rest IH]; cbn; [constructor|].
  intro H. apply andb_true_iff in H as [Hhead Hrest].
  constructor; [|now apply IH].
  intro Hin. apply negb_true_iff in Hhead.
  assert (Hex : existsb (key_eqb k) rest = true).
  { apply existsb_exists. exists k. split; [assumption | now apply key_eqb_eq]. }
  congruence.
Qed.

Lemma NoDup_map_app_disjoint {A B} (f : A -> B) l1 l2 :
  NoDup (map f (l1 ++ l2)) ->
  NoDup (map f l2) /\ forall x, In x l2 -> ~ In (f x) (map f l1).
Proof.
  rewrite map_app. intro Hnd. split; [now apply NoDup_app_remove_l in Hnd|].
  induction l1 as [|a l1 IH]; cbn in *; [tauto|].
  inversion Hnd as [|? ? Hhead Hrest]; subst.
  intros x Hx [Heq | Hin].
  - apply Hhead. rewrite Heq. apply in_or_app. right. now apply in_map.
  - now apply (IH Hrest x).
Qed.

Lemma size_pushed_reads q reqs :
  size (pushed_reads q reqs) = (size q + List.length reqs)%nat.
Proof. unfold pushed_reads, size. cbn. rewrite length_app. lia. Qed.

Lemma length_baseline_reads clock i dps :
  List.length (baseline_reads clock i dps) = List.length dps.
Proof.
  rewrite <- (length_map key), key_baseline_reads. apply length_map.
Qed.

Lemma pushed_reads_app q l1 l2 :
  pushed_reads (pushed_reads q l1) l2 = pushed_reads q (l1 ++ l2).
Proof. unfold pushed_reads. cbn. now rewrite app_assoc. Qed.

Lemma incl_tl_self {A} (l : list A) : incl (tl l) l.
Proof. destruct l; [apply incl_refl | apply incl_tl, incl_refl]. Qed.

Lemma incl_cleanup now q : incl (cleanup now q) q.
Proof. rewrite cleanup_filter. apply incl_filter. Qed.

(** The calls the dispatcher and the completion handlers make only take
    requests away. *)
Lemma dispatcher_call_shrinks s c :
  dispatcher_call c = true ->
  (List.length (write_queue (step s c)) + List.length (read_queue (step s c))
   <= size s)%nat /\
  incl (read_queue (step s c)) (read_queue s).
Proof.
  destruct c; cbn [dispatcher_call step]; [discriminate| | | |]; intros _.
  - unfold get_next, size.
    destruct (_ && _); [split; [cbn; lia | apply incl_refl]|].
    destruct (_ && _); [split; [cbn; lia | apply incl_refl]|].
    destruct (has_current s) eqn:Hcur.
    + destruct (get_current_ptr s); [|split; [cbn; lia | apply incl_refl]].
      destruct (_ <? _); [|split; [cbn; lia | apply incl_refl]].
      cbn [snd]. unfold set_last_retry_time, release_current. rewrite Hcur.
      cbn. destruct (current_is_write s).
      * split; [|apply incl_refl]. destruct (write_queue s); cbn; lia.
      * split; [|apply incl_tl_self]. destruct (read_queue s); cbn; lia.
    + destruct (write_queue s) eqn:Hw; [destruct (read_queue s) eqn:Hr|];
        cbn [snd]; unfold select; cbn; rewrite ?Hw, ?Hr;
        (split; [cbn; lia | apply incl_refl]).
  - unfold retry_current, size. destruct (has_current s); cbn;
      (split; [lia | apply incl_refl]).
  - unfold release_current, size. destruct (has_current s); cbn [negb];
      [|split; [lia | apply incl_refl]].
    cbn. destruct (current_is_write s).
    + split; [|apply incl_refl]. destruct (write_queue s); cbn; lia.
    + split; [|apply incl_tl_self]. destruct (read_queue s); cbn; lia.
  - unfold cleanup_stale, size. cbn. split; [|apply incl_cleanup].
    pose proof (filter_length_le
                  (fun r => negb (REQUEST_TIMEOUT_MS <? wsub now (enqueue_time r)))
                  (write_queue s)).
    pose proof (filter_length_le
                  (fun r => negb (REQUEST_TIMEOUT_MS <? wsub now (enqueue_time r)))
                  (read_queue s)).
    rewrite !cleanup_filter. lia.
Qed.

Lemma dispatcher_calls_shrink mid :
  forall s,
    forallb dispatcher_call mid = true ->
    (size (run s mid) <= size s)%nat /\
    incl (read_queue (run s mid)) (read_queue s).
Proof.
  induction mid as [|c mid IH]; intros s Hmid; cbn [run fold_left].
  - split; [lia | apply incl_refl].
  - cbn in Hmid. apply andb_true_iff in Hmid as [Hc Hmid].
    destruct (dispatcher_call_shrinks s c Hc) as [Hsize Hincl].
    destruct (IH (step s c) Hmid) as [Hsize' Hincl'].
    fold (run (step s c) mid). unfold size in *. split; [lia|].
    eapply incl_tran; eassumption.
Qed.

(** C8, as the code has it.  35 registered datapoints with pairwise
    distinct (address, component identifier), none with a pending local
    write; cursor 0, batch size 20; a store with room for 35 more requests
    that holds no read with the key of one of the datapoints.  The first
    [update] pushes the baseline reads of points 0 to 19, in order, behind
    what the read queue holds and leaves the cursor at 20.  Whatever the
    dispatcher and the completion handlers then do to the scheduler
    ([get_next], [retry_current], [release_current], [cleanup_stale]), the
    second [update] pushes the reads of points 20 to 34 behind what is left
    and puts the cursor back to 0 (and runs [cleanup_stale] after that if
    the cleanup counter has reached 10).  The reads pushed in the two
    periods are one per point, in the order of the points: none twice, none
    missing. *)
Theorem batched_reads_two_periods clock1 clock2 dps v0 mid :
  List.length dps = 35%nat ->
  Forall (fun dp => dp_last_update dp = 0) dps ->
  NoDup (map dp_key dps) ->
  VitoConnect.last_datapoint_index v0 = 0%nat ->
  (size (VitoConnect.smart_queue v0) + 35 <= MAX_QUEUE_SIZE)%nat ->
  (forall dp, In dp dps ->
     ~ In (dp_key dp) (map key (read_queue (VitoConnect.smart_queue v0)))) ->
  forallb dispatcher_call mid = true ->
  let q0 := VitoConnect.smart_queue v0 in
  let reads1 := baseline_reads clock1 0 (firstn 20 dps) in
  let reads2 := baseline_reads clock2 20 (skipn 20 dps) in
  let v1 := VitoConnect.update clock1 dps v0 in
  let q1 := run (VitoConnect.smart_queue v1) mid in
  let v2 := VitoConnect.update clock2 dps
              (VitoConnect.mk q1 (VitoConnect.cleanup_counter v1)
                 (VitoConnect.last_datapoint_index v1)) in
  VitoConnect.BATCH_SIZE = 20%nat /\
  VitoConnect.smart_queue v1 = pushed_reads q0 reads1 /\
  VitoConnect.last_datapoint_index v1 = 20%nat /\
  VitoConnect.smart_queue v2 =
    (if 10 <=? VitoConnect.cleanup_counter v0 + 1
     then cleanup_stale (pushed_reads q1 reads2) (clock2 VitoConnect.AtCleanup)
     else pushed_reads q1 reads2) /\
  VitoConnect.last_datapoint_index v2 = 0%nat /\
  List.length (firstn 20 dps) = 20%nat /\
  List.length (skipn 20 dps) = 15%nat /\
  map callback_arg (reads1 ++ reads2) =
    map (fun dp => Some (mkCbArg dp false 0 None)) dps.
Proof.
  intros Hlen Hclean Hnd Hcursor Hroom Hfresh Hmid q0 reads1 reads2 v1 q1 v2.
  assert (Hfirst : List.length (firstn 20 dps) = 20%nat)
    by (rewrite length_firstn; lia).
  assert (Hlast : List.length (skipn 20 dps) = 15%nat)
    by (rewrite length_skipn; lia).
  assert (Hv1 : v1 = VitoConnect.mk (pushed_reads q0 reads1)
                       (VitoConnect.cleanup_counter v0) 20).
  { subst v1 reads1 q0. unfold VitoConnect.update.
    rewrite (enqueue_writes_unmodified clock1 dps Hclean), Hcursor.
    cbn [skipn].
    rewrite enqueue_reads_batch; try assumption.
    - rewrite Hlen. reflexivity.
    - rewrite Hlen. exact Hroom.
    - apply Nat.ltb_lt. reflexivity. }
  assert (Hq1 : (size q1 <= size q0 + 20)%nat /\
                incl (read_queue q1) (read_queue q0 ++ reads1)).
  { subst q1. rewrite Hv1. cbn [VitoConnect.smart_queue].
    destruct (dispatcher_calls_shrink mid (pushed_reads q0 reads1) Hmid)
      as [Hsize Hincl].
    rewrite size_pushed_reads in Hsize. subst reads1.
    rewrite length_baseline_reads, Hfirst in Hsize. split; assumption. }
  destruct Hq1 as [Hsize1 Hincl1]. clearbody q1.
  assert (Hsplit := Hnd). rewrite <- (firstn_skipn 20 dps) in Hsplit.
  destruct (NoDup_map_app_disjoint dp_key _ _ Hsplit) as [Hnd2 Hdisj].
  assert (Hv2 : VitoConnect.smart_queue v2 =
                  (if 10 <=? VitoConnect.cleanup_counter v0 + 1
                   then cleanup_stale (pushed_reads q1 reads2)
                          (clock2 VitoConnect.AtCleanup)
                   else pushed_reads q1 reads2) /\
                VitoConnect.last_datapoint_index v2 = 0%nat).
  { subst v2 reads2. rewrite Hv1. unfold VitoConnect.update.
    rewrite (enqueue_writes_unmodified clock2 dps Hclean).
    cbn [VitoConnect.smart_queue VitoConnect.last_datapoint_index
         VitoConnect.cleanup_counter].
    rewrite enqueue_reads_batch; try assumption.
    - rewrite Hlast. cbn [Nat.add Nat.ltb Nat.leb VitoConnect.BATCH_SIZE].
      destruct (10 <=? VitoConnect.cleanup_counter v0 + 1); split; reflexivity.
    - intros dp Hin Hqueued. apply in_map_iff in Hqueued as (r & Hkey & Hr).
      apply Hincl1, in_app_iff in Hr as [Hr | Hr].
      + apply (Hfresh dp).
        * rewrite <- (firstn_skipn 20 dps). apply in_or_app. now right.
        * rewrite <- Hkey. now apply in_map.
      + apply (Hdisj dp Hin). rewrite <- Hkey.
        rewrite <- (key_baseline_reads clock1 0). now apply in_map.
    - rewrite Hlast. subst q0. unfold MAX_QUEUE_SIZE in *. lia.
    - apply Nat.ltb_lt. reflexivity. }
  destruct Hv2 as [Hstore2 Hcursor2].
  rewrite Hv1 at 1 2. cbn [VitoConnect.smart_queue VitoConnect.last_datapoint_index].
  repeat split; try assumption.
  subst reads1 reads2.
  rewrite map_app, !callback_arg_baseline_reads, <- map_app.
  now rewrite firstn_skipn.
Qed.

Lemma batched_reads_two_periods_witness :
  let v0 := VitoConnect.mk write_behind_read 3 0 in
  let v1 := VitoConnect.update (fun _ => 1000) points_35 v0 in
  let q1 := run (VitoConnect.smart_queue v1) [CGetNext 1500 1500; CRelease 1600] in
  let v2 := VitoConnect.update (fun _ => 61000) points_35
              (VitoConnect.mk q1 (VitoConnect.cleanup_counter v1)
                 (VitoConnect.last_datapoint_index v1)) in
  VitoConnect.last_datapoint_index v1 = 20%nat /\
  VitoConnect.last_datapoint_index v2 = 0%nat.
Proof.
  destruct (batched_reads_two_periods (fun _ => 1000) (fun _ => 61000) points_35
              (VitoConnect.mk write_behind_read 3 0)
              [CGetNext 1500 1500; CRelease 1600])
    as (_ & _ & Hcur1 & _ & Hcur2 & _).
  - reflexivity.
  - apply Forall_forall. intros dp Hin. apply in_map_iff in Hin as (i & <- & _).
    reflexivity.
  - apply distinct_keys_NoDup. vm_compute. reflexivity.
  - reflexivity.
  - apply Nat.leb_le. vm_compute. reflexivity.
  - assert (Hall : forallb (fun dp => negb (key_eqb (0x2306, false, 7) (dp_key dp)))
                     points_35 = true) by (vm_compute; reflexivity).
    intros dp Hin [Heq | []].
    rewrite forallb_forall in Hall. specialize (Hall dp Hin).
    apply negb_true_iff in Hall.
    assert (Heq' : (0x2306, false, 7) = dp_key dp) by exact Heq.
    apply key_eqb_eq in Heq'. congruence.
  - reflexivity.
  - cbv zeta. split; [exact Hcur1 | exact Hcur2].
Defined.

(** C8, as stated, fails without these conditions; each line starts from
    cursor 0 with 35 registered points and batch size 20.  Two points that
    share address and component identifier (objects 4096 bytes apart): the
    read of point 15 is merged into that of point 0 and never stored.  32
    points with a pending write: pass 1 fills the store and the first
    period ends with cursor 0.  A store that already holds 50 requests: 14
    reads fit and the first period ends with cursor 0.  A store that already
    holds a read with the key of point 3 among more than 10: no baseline
    read of point 3 is stored. *)
Lemma batched_reads_need_preconditions :
  let clock := fun _ : VitoConnect.site => 1000 in
  (let v1 := VitoConnect.update clock colliding_points_35 VitoConnect.init in
   let v2 := VitoConnect.update clock colliding_points_35 v1 in
   List.length colliding_points_35 = 35%nat /\
   VitoConnect.last_datapoint_index v1 = 20%nat /\
   VitoConnect.last_datapoint_index v2 = 0%nat /\
   read_count (VitoConnect.smart_queue v2) = 34%nat /\
   holds_read_of (nth 15 colliding_points_35 sample_point)
     (VitoConnect.smart_queue v2) = false) /\
  (let v1 := VitoConnect.update clock modified_points_35 VitoConnect.init in
   List.length modified_points_35 = 35%nat /\
   VitoConnect.last_datapoint_index v1 = 0%nat /\
   size (VitoConnect.smart_queue v1) = 64%nat) /\
  (let v1 := VitoConnect.update clock points_35
               (VitoConnect.mk (run init (reads_upto 50)) 0 0) in
   VitoConnect.last_datapoint_index v1 = 0%nat /\
   read_count (VitoConnect.smart_queue v1) = 64%nat /\
   holds_read_of (nth 14 points_35 sample_point) (VitoConnect.smart_queue v1) = false) /\
  (let v1 := VitoConnect.update clock points_35
               (VitoConnect.mk
                  (run init (reads_upto 11 ++ [CEnqueue 0x2303 1 false None 3 100]))
                  0 0) in
   VitoConnect.last_datapoint_index v1 = 20%nat /\
   holds_read_of (nth 3 points_35 sample_point) (VitoConnect.smart_queue v1) = false).
Proof. vm_compute. repeat split. Qed.

(** * Further properties of the scheduler *)

(** ** Capacity and partition *)

Lemma size_release s now : (size (release_current s now) <= size s)%nat.
Proof.
  unfold release_current, size. destruct (has_current s); cbn [negb]; [|lia].
  destruct (current_is_write s); cbn [write_queue read_queue].
  - destruct (write_queue s); cbn; lia.
  - destruct (read_queue s); cbn; lia.
Qed.

Lemma length_cleanup now q : (List.length (cleanup now q) <= List.length q)%nat.
Proof. rewrite cleanup_filter. apply filter_length_le. Qed.

Lemma size_cleanup s now : (size (cleanup_stale s now) <= size s)%nat.
Proof.
  unfold cleanup_stale, size. cbn [write_queue read_queue].
  pose proof (length_cleanup now (write_queue s)).
  pose proof (length_cleanup now (read_queue s)). lia.
Qed.

Lemma size_retry s now : size (retry_current s now) = size s.
Proof. unfold retry_current. now destruct (has_current s). Qed.

Lemma size_get_next s now now_rel :
  (size (snd (get_next s now now_rel)) <= size s)%nat.
Proof.
  unfold get_next.
  destruct (_ && _); [cbn; lia|].
  destruct (_ && _); [cbn; lia|].
  destruct (has_current s).
  - destruct (get_current_ptr s) as [cur|]; [|cbn; unfold size; cbn; lia].
    destruct (_ <? _); cbn [snd]; [|lia].
    pose proof (size_release s now_rel) as Hrel.
    unfold set_last_retry_time, size in *. cbn. lia.
  - destruct (write_queue s) eqn:Hw; [destruct (read_queue s) eqn:Hr|];
      cbn [snd]; unfold select, size; cbn; rewrite ?Hw, ?Hr; cbn; lia.
Qed.

Lemma size_enqueue s addr len write arg ct now :
  (size s <= MAX_QUEUE_SIZE ->
   size (snd (enqueue s addr len write arg ct now)) <= MAX_QUEUE_SIZE)%nat /\
  (size s <= size (snd (enqueue s addr len write arg ct now)) <= size s + 1)%nat.
Proof.
  destruct (enqueue_cases s addr len write arg ct now)
    as [[-> _] | [[-> _] | [-> [Hroom _]]]]; cbn [snd];
    rewrite ?size_pushed; lia.
Qed.

Lemma size_step s c :
  (size s <= MAX_QUEUE_SIZE)%nat -> (size (step s c) <= MAX_QUEUE_SIZE)%nat.
Proof.
  intro IH. destruct c; cbn [step].
  - now apply size_enqueue.
  - pose proof (size_get_next s now now_rel). lia.
  - rewrite size_retry. exact IH.
  - pose proof (size_release s now). lia.
  - pose proof (size_cleanup s now). lia.
Qed.

(** X1. The store never holds more than [MAX_QUEUE_SIZE] requests: no
    sequence of calls from the constructor gets the two queues above 64 in
    total. *)
Theorem store_within_capacity s :
  reachable s -> (size s <= MAX_QUEUE_SIZE)%nat.
Proof.
  induction 1 as [|s c _ IH]; [cbn; lia|]. now apply size_step.
Qed.

Lemma store_within_capacity_witness : (size full_store <= 64)%nat.
Proof.
  apply (store_within_capacity full_store). apply full_store_reachable.
Defined.

(** X2. Requests are filed by kind: in every reachable scheduler the write
    queue holds writes only and the read queue holds reads only. *)
Theorem queues_hold_their_kind s :
  reachable s ->
  (forall r, In r (write_queue s) -> is_write r = true) /\
  (forall r, In r (read_queue s) -> is_write r = false).
Proof.
  intro Hreach. destruct (reachable_invariant s Hreach) as [_ Hwk Hrk _].
  rewrite Forall_forall in Hwk, Hrk. split; assumption.
Qed.

Lemma queues_hold_their_kind_witness :
  is_write (mkReq 0x2323 1 true None 3 1010) = true /\
  is_write (mkReq 0x2306 1 false None 7 1000) = false.
Proof.
  destruct (queues_hold_their_kind write_behind_read) as [Hw Hr].
  - apply reachable_run, reachable_run, reach_init.
  - split; [apply Hw | apply Hr]; now left.
Defined.

(** X3. [has_pending] is the scan of the queue of the class asked for: the
    extra look at the request in flight never changes the answer, because
    that request is the front of the queue just scanned. *)
Theorem has_pending_is_queue_scan s addr write ct :
  has_pending s addr write ct =
  existsb (fun req => matches req addr write ct) (class_queue s write).
Proof.
  unfold has_pending, class_queue.
  destruct (existsb _ _) eqn:Hscan; [reflexivity|].
  destruct (has_current s && Bool.eqb (current_is_write s) write) eqn:Hcur;
    [|reflexivity].
  apply andb_true_iff in Hcur as [Hcur Hcls]. apply Bool.eqb_prop in Hcls.
  unfold get_current_ptr. rewrite Hcur, Hcls. cbn [negb].
  destruct write.
  - destruct (write_queue s) as [|front q]; [reflexivity|].
    cbn in Hscan |- *. now apply orb_false_iff in Hscan as [-> _].
  - destruct (read_queue s) as [|front q]; [reflexivity|].
    cbn in Hscan |- *. now apply orb_false_iff in Hscan as [-> _].
Qed.

(** ** Selection and the request in flight *)

Lemma get_next_in_flight s now now_rel cur :
  last_retry_time s = 0 ->
  get_current_ptr s = Some cur ->
  get_next s now now_rel =
  if REQUEST_TIMEOUT_MS <? age now cur
  then (None, set_last_retry_time (release_current s now_rel) 0)
  else (Some cur, s).
Proof.
  intros Hthr Hptr.
  assert (Hcur : has_current s = true).
  { unfold get_current_ptr in Hptr. now destruct (has_current s). }
  unfold get_next, age. rewrite Hthr, Hcur, Hptr. reflexivity.
Qed.

Lemma get_next_again s now now_rel req s1 t t_rel :
  reachable s ->
  get_next s now now_rel = (Some req, s1) ->
  has_current s1 = true /\
  get_next s1 t t_rel =
  if REQUEST_TIMEOUT_MS <? age t req
  then (None, set_last_retry_time (release_current s1 t_rel) 0)
  else (Some req, s1).
Proof.
  intros Hreach Hnext.
  destruct (get_next_some _ _ _ _ _ Hnext) as (Hcur & Hptr & _ & _).
  assert (Hreach1 : reachable s1).
  { replace s1 with (step s (CGetNext now now_rel)); [now constructor|].
    cbn. now rewrite Hnext. }
  pose proof (inv_no_throttle_in_flight s1 (reachable_invariant s1 Hreach1) Hcur)
    as Hthr.
  split; [assumption|]. now apply get_next_in_flight.
Qed.

(** X4. Once [get_next] has handed out a request, a run of consecutive
    [get_next] calls with no other call on the scheduler in between, each
    made while the age of the request is within the timeout, hands out that
    same request every time and leaves the scheduler as it is.  A
    [get_next] made on that state when the age is over the timeout returns
    [nullptr] and clears the in-flight flag. *)
Theorem in_flight_request_is_stable s now now_rel req s1 :
  reachable s ->
  get_next s now now_rel = (Some req, s1) ->
  (forall ts : list (Z * Z),
     Forall (fun p => age (fst p) req <= REQUEST_TIMEOUT_MS) ts ->
     run s1 (map (fun p => CGetNext (fst p) (snd p)) ts) = s1 /\
     Forall (fun p => get_next s1 (fst p) (snd p) = (Some req, s1)) ts) /\
  (forall t t_rel,
     REQUEST_TIMEOUT_MS < age t req ->
     fst (get_next s1 t t_rel) = None /\
     has_current (snd (get_next s1 t t_rel)) = false).
Proof.
  intros Hreach Hnext.
  assert (Hagain : forall t t_rel,
            has_current s1 = true /\
            get_next s1 t t_rel =
              if REQUEST_TIMEOUT_MS <? age t req
              then (None, set_last_retry_time (release_current s1 t_rel) 0)
              else (Some req, s1))
    by (intros t t_rel; now apply (get_next_again s now now_rel)).
  split.
  - induction 1 as [|[t t_rel] ts Hyoung _ [IHrun IHall]]; cbn [map run fold_left].
    + split; [reflexivity | constructor].
    + cbn [fst snd] in Hyoung.
      assert (Hsame : get_next s1 t t_rel = (Some req, s1)).
      { destruct (Hagain t t_rel) as [_ ->]. apply Z.ltb_ge in Hyoung.
        now rewrite Hyoung. }
      split.
      * cbn [step fst snd]. rewrite Hsame. cbn [snd]. exact IHrun.
      * constructor; assumption.
  - intros t t_rel Hold. destruct (Hagain t t_rel) as [Hcur ->].
    apply Z.ltb_lt in Hold. rewrite Hold. cbn [fst snd]. split; [reflexivity|].
    unfold set_last_retry_time, release_current. now rewrite Hcur.
Qed.

Lemma in_flight_request_is_stable_witness :
  run read_selected [CGetNext 2000 2000; CGetNext 2500 2501] = read_selected /\
  get_next read_selected 2500 2501 =
    (Some (mkReq 0x2306 1 false None 7 1000), read_selected).
Proof.
  destruct (in_flight_request_is_stable one_read 1000 1000
              (mkReq 0x2306 1 false None 7 1000) read_selected)
    as [Hrun _].
  - apply reachable_run, reach_init.
  - reflexivity.
  - destruct (Hrun [(2000, 2000); (2500, 2501)]) as [Hsame Hall].
    + repeat constructor; vm_compute; discriminate.
    + split; [exact Hsame|].
      inversion Hall as [|? ? _ Hrest]; subst.
      inversion Hrest as [|? ? Hlast _]; subst. exact Hlast.
Defined.

Lemma get_next_idle_due s now now_rel :
  has_current s = false ->
  throttled s now = false ->
  INTER_COMM_DELAY_MS <= wsub now (last_comm_time s) ->
  get_next s now now_rel =
  match write_queue s, read_queue s with
  | w :: _, _ => (Some w, select s true)
  | [], r :: _ => (Some r, select s false)
  | [], [] => (None, s)
  end.
Proof.
  intros Hidle Hthr Hdue. unfold get_next. fold (throttled s now).
  rewrite Hthr, Hidle. cbn [negb andb].
  apply Z.ltb_ge in Hdue. rewrite Hdue.
  destruct (write_queue s); [destruct (read_queue s)|]; reflexivity.
Qed.

(** X5. When nothing is in flight, no retry throttle is active and the
    inter-communication delay has passed, [get_next] on a non-empty store
    always selects: the front of the write queue if there is one, else the
    front of the read queue; the request is marked in flight and both
    queues stay as they are. *)
Theorem get_next_selects_when_due s now now_rel :
  has_current s = false ->
  throttled s now = false ->
  INTER_COMM_DELAY_MS <= wsub now (last_comm_time s) ->
  is_empty s = false ->
  exists req,
    hd_error (write_queue s ++ read_queue s) = Some req /\
    get_next s now now_rel =
      (Some req, select s (match write_queue s with [] => false | _ => true end)).
Proof.
  intros Hidle Hthr Hdue Hne.
  rewrite (get_next_idle_due s now now_rel Hidle Hthr Hdue).
  unfold is_empty in Hne.
  destruct (write_queue s) as [|w wq]; [|exists w; now split].
  destruct (read_queue s) as [|r rq]; [discriminate|]. exists r. now split.
Qed.

Lemma get_next_selects_when_due_witness :
  fst (get_next one_read 1050 1050) = Some (mkReq 0x2306 1 false None 7 1000).
Proof.
  destruct (get_next_selects_when_due one_read 1050 1050) as (req & Hhd & Hnext).
  - reflexivity.
  - reflexivity.
  - vm_compute. discriminate.
  - reflexivity.
  - rewrite Hnext. cbn [fst]. rewrite <- Hhd. reflexivity.
Defined.

(** X6. [get_next] only hands out what is stored: a request it returns is
    the front of one of the two queues, and the call has left both queues
    as they were.  On an empty store it returns [nullptr], whatever the
    flags say. *)
Theorem get_next_returns_stored_front s now now_rel :
  (forall req, fst (get_next s now now_rel) = Some req ->
     (hd_error (write_queue s) = Some req \/ hd_error (read_queue s) = Some req) /\
     write_queue (snd (get_next s now now_rel)) = write_queue s /\
     read_queue (snd (get_next s now now_rel)) = read_queue s) /\
  (is_empty s = true ->
     fst (get_next s now now_rel) = None /\
     is_empty (snd (get_next s now now_rel)) = true).
Proof.
  assert (Hsome : forall req, fst (get_next s now now_rel) = Some req ->
     (hd_error (write_queue s) = Some req \/ hd_error (read_queue s) = Some req) /\
     write_queue (snd (get_next s now now_rel)) = write_queue s /\
     read_queue (snd (get_next s now now_rel)) = read_queue s).
  { intros req Hreq.
    destruct (get_next s now now_rel) as [r s1] eqn:Hnext. cbn in Hreq. subst r.
    destruct (get_next_some _ _ _ _ _ Hnext) as (Hcur & Hptr & Hw & Hr).
    cbn [snd]. repeat split; try assumption.
    unfold get_current_ptr in Hptr. rewrite Hcur, Hw, Hr in Hptr. cbn [negb] in Hptr.
    destruct (current_is_write s1); [now left | now right]. }
  split; [exact Hsome|].
  intro Hempty. unfold is_empty in Hempty.
  destruct (write_queue s) eqn:Hw; [|discriminate].
  destruct (read_queue s) eqn:Hr; [|discriminate].
  assert (Hnone : fst (get_next s now now_rel) = None).
  { destruct (fst (get_next s now now_rel)) as [req|] eqn:Hreq; [|reflexivity].
    destruct (Hsome req eq_refl) as [[Habs|Habs] _]; discriminate Habs. }
  split; [exact Hnone|].
  pose proof (size_get_next s now now_rel) as Hsize.
  unfold size in Hsize. rewrite Hw, Hr in Hsize. cbn in Hsize. unfold is_empty.
  destruct (write_queue (snd (get_next s now now_rel))); [|cbn in Hsize; lia].
  destruct (read_queue (snd (get_next s now now_rel))); [reflexivity|cbn in Hsize; lia].
Qed.

Lemma get_next_returns_stored_front_witness :
  fst (get_next lost_front 40000 40000) = None.
Proof.
  apply (get_next_returns_stored_front lost_front 40000 40000). reflexivity.
Defined.

(** X7. If the request in flight has gone from its queue (a
    [cleanup_stale] took it and left the queue empty), the next [get_next]
    of a reachable scheduler clears the in-flight flag, touches nothing else
    and returns [nullptr]; the scheduler is idle again. *)
Theorem get_next_recovers_from_lost_front s now now_rel :
  reachable s ->
  has_current s = true ->
  class_queue s (current_is_write s) = [] ->
  get_next s now now_rel =
  (None, SmartQueue.mk (write_queue s) (read_queue s) false (current_is_write s)
           (last_comm_time s) 0).
Proof.
  intros Hreach Hcur Hgone.
  pose proof (inv_no_throttle_in_flight s (reachable_invariant s Hreach) Hcur) as Hthr.
  unfold get_next, get_current_ptr. rewrite Hthr, Hcur. cbn [Z.ltb Z.compare andb negb].
  unfold class_queue in Hgone.
  destruct (current_is_write s); rewrite Hgone; reflexivity.
Qed.

Lemma get_next_recovers_from_lost_front_witness :
  get_next lost_front 40000 40000 = (None, SmartQueue.mk [] [] false false 0 0).
Proof.
  apply (get_next_recovers_from_lost_front lost_front 40000 40000).
  - apply reachable_run, reachable_run, reach_init.
  - reflexivity.
  - reflexivity.
Defined.

(** ** Composition of the operations *)

Lemma cleanup_filter_age now q :
  cleanup now q = filter (fun r => age now r <=? REQUEST_TIMEOUT_MS) q.
Proof.
  rewrite cleanup_filter. apply filter_ext. intro r. unfold age.
  now rewrite Z.leb_antisym.
Qed.

Lemma cleanup_twice now q : cleanup now (cleanup now q) = cleanup now q.
Proof.
  rewrite !cleanup_filter_age.
  induction q as [|r q IH]; cbn; [reflexivity|].
  destruct (age now r <=? REQUEST_TIMEOUT_MS) eqn:Hr; cbn; [|exact IH].
  now rewrite Hr, IH.
Qed.

(** X8. [cleanup_stale] is idempotent and only removes: a second call at
    the same clock reading changes nothing, the store does not grow, and
    what is left in either queue is a subsequence of what was there, none of
    it older than the timeout. *)
Theorem cleanup_stale_idempotent s now :
  cleanup_stale (cleanup_stale s now) now = cleanup_stale s now /\
  (size (cleanup_stale s now) <= size s)%nat /\
  Forall (fun r => age now r <= REQUEST_TIMEOUT_MS)
    (write_queue (cleanup_stale s now) ++ read_queue (cleanup_stale s now)).
Proof.
  split; [|split].
  - unfold cleanup_stale. cbn. now rewrite !cleanup_twice.
  - apply size_cleanup.
  - apply Forall_forall. intros r Hin. unfold cleanup_stale in Hin. cbn in Hin.
    apply in_app_iff in Hin. rewrite !in_cleanup in Hin. tauto.
Qed.

(** X9. A write enqueued while nothing is in flight and no other write is
    waiting goes ahead of every read already queued: the next [get_next]
    that is due returns exactly that write, stamped with its enqueue time,
    and the [release_current] that follows empties the write queue again
    without touching the reads. *)
Theorem fresh_write_overtakes_reads s addr len arg ct t now now_rel t_rel :
  has_current s = false ->
  write_queue s = [] ->
  (size s < MAX_QUEUE_SIZE)%nat ->
  throttled s now = false ->
  INTER_COMM_DELAY_MS <= wsub now (last_comm_time s) ->
  let s1 := snd (enqueue s addr len true arg ct t) in
  let s2 := snd (get_next s1 now now_rel) in
  let s3 := release_current s2 t_rel in
  fst (get_next s1 now now_rel) = Some (mkReq addr len true arg ct t) /\
  write_queue s3 = [] /\
  read_queue s3 = read_queue s /\
  has_current s3 = false /\
  last_comm_time s3 = t_rel.
Proof.
  intros Hidle Hw Hroom Hthr Hdue. cbv zeta.
  assert (Hnew : dedup_checked s true && has_pending s addr true ct = false).
  { cbn [dedup_checked orb andb]. apply Bool.not_true_iff_false. intro Hpend.
    apply has_pending_iff in Hpend. unfold class_queue in Hpend.
    now rewrite Hw in Hpend. }
  rewrite (enqueue_pushed s addr len true arg ct t Hroom Hnew). cbn [snd].
  set (s1 := pushed s (mkReq addr len true arg ct t)).
  assert (Hnext : get_next s1 now now_rel =
                  (Some (mkReq addr len true arg ct t), select s1 true)).
  { unfold get_next. subst s1. unfold pushed.
    cbn [is_write last_retry_time has_current last_comm_time write_queue].
    fold (throttled s now). rewrite Hthr, Hidle, Hw. cbn [negb andb app].
    apply Z.ltb_ge in Hdue. now rewrite Hdue. }
  rewrite Hnext. cbn [fst snd]. split; [reflexivity|].
  subst s1. unfold release_current, select, pushed. cbn. rewrite Hw. cbn.
  repeat split.
Qed.

Lemma fresh_write_overtakes_reads_witness :
  fst (get_next (snd (enqueue one_read 0x2323 1 true None 3 1010)) 1100 1100) =
    Some (mkReq 0x2323 1 true None 3 1010).
Proof.
  apply (fresh_write_overtakes_reads one_read 0x2323 1 None 3 1010 1100 1100 1200).
  - reflexivity.
  - reflexivity.
  - apply Nat.ltb_lt. reflexivity.
  - reflexivity.
  - vm_compute. discriminate.
Defined.

(** X10. After [release_current] of a request in flight the scheduler is
    paced: every [get_next] made less than [INTER_COMM_DELAY_MS] after the
    release returns [nullptr] and selects nothing, however many requests
    wait. *)
Theorem release_then_paced s t_rel now now_rel :
  has_current s = true ->
  wsub now t_rel < INTER_COMM_DELAY_MS ->
  get_next (release_current s t_rel) now now_rel = (None, release_current s t_rel) /\
  (size (release_current s t_rel) <= size s)%nat.
Proof.
  intros Hcur Hsoon. split; [|apply size_release].
  apply get_next_idle_paced.
  - unfold release_current. now rewrite Hcur.
  - unfold release_current. rewrite Hcur. exact Hsoon.
Qed.

Lemma release_then_paced_witness :
  get_next (release_current write_behind_read 2000) 2049 2049 =
    (None, release_current write_behind_read 2000).
Proof.
  apply (release_then_paced write_behind_read 2000 2049 2049).
  - reflexivity.
  - reflexivity.
Defined.

(** X11. A retried request comes back: with a request in flight that is a
    write, or a read while no write waits, [retry_current] followed by a
    [get_next] that is past the retry delay and the inter-communication
    delay hands out the very same request again. *)
Theorem retried_request_comes_back s cur t_retry now now_rel :
  get_current_ptr s = Some cur ->
  current_is_write s = true \/ write_queue s = [] ->
  RETRY_DELAY_MS <= wsub now t_retry ->
  INTER_COMM_DELAY_MS <= wsub now (last_comm_time s) ->
  get_next (retry_current s t_retry) now now_rel =
  (Some cur, select s (current_is_write s)).
Proof.
  intros Hptr Hfirst Hdelay Hdue.
  assert (Hcur : has_current s = true).
  { unfold get_current_ptr in Hptr. now destruct (has_current s). }
  rewrite (retry_current_in_flight s t_retry Hcur).
  unfold get_current_ptr in Hptr. rewrite Hcur in Hptr. cbn [negb] in Hptr.
  unfold get_next. cbn [last_retry_time has_current last_comm_time write_queue
                      read_queue negb].
  apply Z.ltb_ge in Hdelay, Hdue. rewrite Hdelay, Hdue, andb_false_r.
  cbn [andb]. unfold select. cbn [write_queue read_queue last_comm_time].
  destruct (current_is_write s).
  - destruct (write_queue s); [discriminate|]. cbn in Hptr. now injection Hptr as ->.
  - destruct Hfirst as [Habs|Hw]; [discriminate|]. rewrite Hw.
    destruct (read_queue s); [discriminate|]. cbn in Hptr. now injection Hptr as ->.
Qed.

Lemma retried_request_comes_back_witness :
  get_next (retry_current read_selected 1500) 1550 1550 =
    (Some (mkReq 0x2306 1 false None 7 1000), read_selected).
Proof.
  apply (retried_request_comes_back read_selected
           (mkReq 0x2306 1 false None 7 1000) 1500 1550 1550).
  - reflexivity.
  - now right.
  - vm_compute. discriminate.
  - vm_compute. discriminate.
Defined.

(** * Further properties of the dispatcher and of the completion handlers *)

Lemma reachable_get_next s now now_rel :
  reachable s -> reachable (snd (get_next s now now_rel)).
Proof. intro H. exact (reach_step s (CGetNext now now_rel) H). Qed.

Lemma reachable_retry s now : reachable s -> reachable (retry_current s now).
Proof. intro H. exact (reach_step s (CRetry now) H). Qed.

Lemma reachable_release s now : reachable s -> reachable (release_current s now).
Proof. intro H. exact (reach_step s (CRelease now) H). Qed.

Lemma reachable_enqueue s addr len write arg ct now :
  reachable s -> reachable (snd (enqueue s addr len write arg ct now)).
Proof. intro H. exact (reach_step s (CEnqueue addr len write arg ct now) H). Qed.

Lemma reachable_cleanup s now : reachable s -> reachable (cleanup_stale s now).
Proof. intro H. exact (reach_step s (CCleanup now) H). Qed.

#[local] Hint Resolve reachable_get_next reachable_retry reachable_release
  reachable_enqueue reachable_cleanup : queue.

Lemma loop_result o q t1 t2 req q1 cbArg :
  VitoConnect.is_ready o = true ->
  get_next q t1 t2 = (Some req, q1) ->
  callback_arg req = Some cbArg ->
  VitoConnect.loop o q t1 t2 =
  if VitoConnect.optolink_busy o then ([], retry_current q1 t2)
  else ([push_of req cbArg],
        if VitoConnect.accepts o then q1 else retry_current q1 t2).
Proof.
  intros Hready Hnext Hcb. unfold VitoConnect.loop, push_of.
  rewrite Hready, Hnext, Hcb. cbn [negb].
  destruct (VitoConnect.optolink_busy o); [reflexivity|].
  now destruct (is_write req).
Qed.

(** X12. The dispatcher step and the two completion handlers drive the
    scheduler through its own operations only: from a reachable scheduler
    they lead to a reachable one, so the capacity bound, the filing by kind
    and the absence of duplicate writes hold after them as well. *)
Theorem dispatcher_keeps_scheduler_reachable q :
  reachable q ->
  (forall o t1 t2, reachable (snd (VitoConnect.loop o q t1 t2))) /\
  (forall data len cbArg dp now,
     reachable (snd (VitoConnect._onData data len cbArg dp q now))) /\
  (forall error has_cb dp now,
     reachable (snd (VitoConnect._onError error has_cb dp q now))).
Proof.
  intro Hreach. split; [|split].
  - intros o t1 t2. unfold VitoConnect.loop.
    destruct (VitoConnect.is_ready o); cbn [negb snd]; [|auto with queue].
    pose proof (reachable_get_next q t1 t2 Hreach) as Hnext.
    destruct (get_next q t1 t2) as [[req|] q1]; cbn [snd] in Hnext |- *;
      [|assumption].
    destruct (callback_arg req); cbn [snd]; [|auto with queue].
    destruct (VitoConnect.optolink_busy o); cbn [snd]; [auto with queue|].
    destruct (is_write req), (VitoConnect.accepts o); cbn [snd]; auto with queue.
  - intros data len cbArg dp now. unfold VitoConnect._onData.
    destruct (if 0 <? dp_last_update dp then _ else _). cbn [snd].
    auto with queue.
  - intros. unfold VitoConnect._onError. cbn [snd]. auto with queue.
Qed.

Lemma dispatcher_keeps_scheduler_reachable_witness :
  reachable (snd (VitoConnect.loop ready_optolink point_read_queued 1100 1101)).
Proof.
  apply (dispatcher_keeps_scheduler_reachable point_read_queued).
  apply reachable_run, reach_init.
Defined.

(** X13. A dispatcher step whose selected request has a callback argument
    never takes anything off the queues.  If the transport is below its
    high-water mark and takes the request, the request stays in flight,
    owned by the scheduler until its completion; if the transport is busy
    or refuses, the request is given back with [retry_current]: nothing is
    in flight and the retry time is recorded. *)
Theorem loop_keeps_dispatchable_request o q t1 t2 req q1 cbArg :
  VitoConnect.is_ready o = true ->
  get_next q t1 t2 = (Some req, q1) ->
  callback_arg req = Some cbArg ->
  let q' := snd (VitoConnect.loop o q t1 t2) in
  write_queue q' = write_queue q /\
  read_queue q' = read_queue q /\
  (VitoConnect.optolink_busy o = false -> VitoConnect.accepts o = true ->
     q' = q1 /\ has_current q' = true /\ get_current_ptr q' = Some req) /\
  (VitoConnect.optolink_busy o = true \/ VitoConnect.accepts o = false ->
     q' = retry_current q1 t2 /\ has_current q' = false /\ last_retry_time q' = t2).
Proof.
  intros Hready Hnext Hcb. cbv zeta.
  rewrite (loop_result o q t1 t2 req q1 cbArg Hready Hnext Hcb).
  destruct (get_next_some _ _ _ _ _ Hnext) as (Hcur & Hptr & Hw & Hr).
  pose proof (retry_current_in_flight q1 t2 Hcur) as Hretry.
  assert (Hgiven : write_queue (retry_current q1 t2) = write_queue q /\
                   read_queue (retry_current q1 t2) = read_queue q /\
                   has_current (retry_current q1 t2) = false /\
                   last_retry_time (retry_current q1 t2) = t2)
    by (rewrite Hretry; cbn; auto).
  destruct Hgiven as (Hw' & Hr' & Hcur' & Hthr').
  destruct (VitoConnect.optolink_busy o), (VitoConnect.accepts o); cbn [snd];
    (split; [assumption|]); (split; [assumption|]); split;
    solve [ intros; discriminate
          | intros [?|?]; discriminate
          | intros; repeat split; assumption ].
Qed.

Lemma loop_keeps_dispatchable_request_witness :
  snd (VitoConnect.loop ready_optolink point_read_queued 1100 1101) =
    point_read_selected.
Proof.
  destruct (loop_keeps_dispatchable_request ready_optolink point_read_queued
              1100 1101 (mkReq 0x2306 1 false (Some sample_cb) 0 1000)
              point_read_selected sample_cb) as (_ & _ & Hok & _).
  - reflexivity.
  - reflexivity.
  - reflexivity.
  - apply Hok; reflexivity.
Defined.

(** X14. The dispatcher step calls the transport at most once, and only
    when the transport is ready and at most 51 requests deep, for the
    request [get_next] has just returned, with its own address, length and
    non-null callback argument; a write carries the bytes the datapoint
    encodes. *)
Theorem loop_pushes_only_selected_request o q t1 t2 e :
  In e (fst (VitoConnect.loop o q t1 t2)) ->
  fst (VitoConnect.loop o q t1 t2) = [e] /\
  VitoConnect.is_ready o = true /\
  exists req,
    fst (get_next q t1 t2) = Some req /\
    match callback_arg req with
    | None => e = VitoConnect.LogInvalidCallbackArg (address req)
    | Some cbArg =>
        (VitoConnect.queue_size o <= 51)%nat /\ e = push_of req cbArg
    end.
Proof.
  unfold VitoConnect.loop.
  destruct (VitoConnect.is_ready o); cbn [negb fst]; [|intros []].
  destruct (get_next q t1 t2) as [[req|] q1]; cbn [fst]; [|intros []].
  intro Hin.
  assert (Hgoal : forall l : list VitoConnect.effect,
            In e l -> (exists x, l = [x]) -> l = [e]).
  { intros l Hl [x ->]. destruct Hl as [->|[]]. reflexivity. }
  destruct (callback_arg req) as [cbArg|] eqn:Hcb.
  - destruct (VitoConnect.optolink_busy o) eqn:Hbusy; [destruct Hin|].
    unfold VitoConnect.optolink_busy in Hbusy. apply Nat.ltb_ge in Hbusy.
    assert (He : e = push_of req cbArg).
    { unfold push_of. destruct (is_write req); destruct Hin as [<-|[]]; reflexivity. }
    split; [|split; [reflexivity|]].
    + apply Hgoal; [assumption|]. destruct (is_write req); eexists; reflexivity.
    + exists req. rewrite Hcb. auto.
  - destruct Hin as [<-|[]]. split; [reflexivity|]. split; [reflexivity|].
    exists req. now rewrite Hcb.
Qed.

Lemma loop_pushes_only_selected_request_witness :
  fst (VitoConnect.loop ready_optolink point_read_queued 1100 1101) =
    [VitoConnect.OptolinkRead 0x2306 1 sample_cb].
Proof.
  apply (loop_pushes_only_selected_request ready_optolink point_read_queued
           1100 1101 (VitoConnect.OptolinkRead 0x2306 1 sample_cb)).
  now left.
Defined.

(** X15. A request stays eligible for the transport for as long as it is
    in flight.  After a step whose push the transport accepted, every later
    step taken before the completion, on a ready transport below its
    high-water mark and within the timeout of the request, calls the
    transport for the same request once more and leaves the scheduler
    unchanged when the transport accepts again. *)
Theorem accepted_request_is_pushed_again o o' q t1 t2 t1' t2' req q1 cbArg :
  reachable q ->
  VitoConnect.is_ready o = true ->
  VitoConnect.optolink_busy o = false ->
  VitoConnect.accepts o = true ->
  get_next q t1 t2 = (Some req, q1) ->
  callback_arg req = Some cbArg ->
  VitoConnect.is_ready o' = true ->
  VitoConnect.optolink_busy o' = false ->
  age t1' req <= REQUEST_TIMEOUT_MS ->
  VitoConnect.loop o q t1 t2 = ([push_of req cbArg], q1) /\
  fst (VitoConnect.loop o' q1 t1' t2') = [push_of req cbArg] /\
  (VitoConnect.accepts o' = true ->
     VitoConnect.loop o' q1 t1' t2' = ([push_of req cbArg], q1)).
Proof.
  intros Hreach Hready Hfree Hacc Hnext Hcb Hready' Hfree' Hyoung.
  pose proof (loop_result o q t1 t2 req q1 cbArg Hready Hnext Hcb) as Hfirst.
  rewrite Hfree, Hacc in Hfirst. split; [exact Hfirst|].
  assert (Hagain : get_next q1 t1' t2' = (Some req, q1)).
  { destruct (get_next_again q t1 t2 req q1 t1' t2' Hreach Hnext) as [_ Hsame].
    rewrite Hsame. apply Z.ltb_ge in Hyoung. now rewrite Hyoung. }
  pose proof (loop_result o' q1 t1' t2' req q1 cbArg Hready' Hagain Hcb) as Hsecond.
  rewrite Hfree' in Hsecond. rewrite Hsecond. cbn [fst]. split; [reflexivity|].
  now intros ->.
Qed.

Lemma accepted_request_is_pushed_again_witness :
  fst (VitoConnect.loop ready_optolink point_read_selected 1200 1201) =
    [VitoConnect.OptolinkRead 0x2306 1 sample_cb].
Proof.
  apply (accepted_request_is_pushed_again ready_optolink ready_optolink
           point_read_queued 1100 1101 1200 1201
           (mkReq 0x2306 1 false (Some sample_cb) 0 1000)
           point_read_selected sample_cb).
  - apply reachable_run, reach_init.
  - reflexivity.
  - reflexivity.
  - reflexivity.
  - reflexivity.
  - reflexivity.
  - reflexivity.
  - reflexivity.
  - vm_compute. discriminate.
Defined.

(** X16. Completion right after an accepted push.  When the completion
    handler runs on the scheduler as the step with the accepted push left
    it, with no further [loop] step and no other call on the scheduler in
    between, [_onData] (whatever the payload and the state of the
    datapoint) and [_onError] both end in the same scheduler, in which the
    request is gone from the front of its queue, the other queue is as
    before, nothing is in flight and the completion time is recorded for
    pacing. *)
Theorem completion_releases_dispatched o q t1 t2 req q1 cbArg :
  VitoConnect.is_ready o = true ->
  VitoConnect.optolink_busy o = false ->
  VitoConnect.accepts o = true ->
  get_next q t1 t2 = (Some req, q1) ->
  callback_arg req = Some cbArg ->
  forall now,
  let q2 := snd (VitoConnect.loop o q t1 t2) in
  let q3 := release_current q2 now in
  (forall data len dp, snd (VitoConnect._onData data len cbArg dp q2 now) = q3) /\
  (forall error has_cb dp, snd (VitoConnect._onError error has_cb dp q2 now) = q3) /\
  class_queue q (current_is_write q1) = req :: class_queue q3 (current_is_write q1) /\
  class_queue q3 (negb (current_is_write q1)) =
    class_queue q (negb (current_is_write q1)) /\
  has_current q3 = false /\
  last_comm_time q3 = now.
Proof.
  intros Hready Hfree Hacc Hnext Hcb now. cbv zeta.
  rewrite (loop_result o q t1 t2 req q1 cbArg Hready Hnext Hcb), Hfree, Hacc.
  cbn [snd].
  destruct (get_next_some _ _ _ _ _ Hnext) as (Hcur & Hptr & Hw & Hr).
  destruct (release_current_front q1 now req Hcur Hptr) as [Hrel Hfront].
  split; [|split].
  - intros data len dp. unfold VitoConnect._onData.
    now destruct (if 0 <? dp_last_update dp then _ else _).
  - reflexivity.
  - split.
    + rewrite <- Hfront. unfold class_queue. now rewrite Hw, Hr.
    + rewrite Hrel. unfold class_queue. cbn.
      destruct (current_is_write q1); cbn; rewrite ?Hw, ?Hr; auto.
Qed.

Lemma completion_releases_dispatched_witness :
  snd (VitoConnect._onData [7] 1 sample_cb sample_point
         (snd (VitoConnect.loop ready_optolink point_read_queued 1100 1101)) 1300) =
    SmartQueue.mk [] [] false false 1300 0.
Proof.
  destruct (completion_releases_dispatched ready_optolink point_read_queued
              1100 1101 (mkReq 0x2306 1 false (Some sample_cb) 0 1000)
              point_read_selected sample_cb) with (now := 1300)
    as (Hdata & _).
  - reflexivity.
  - reflexivity.
  - reflexivity.
  - reflexivity.
  - reflexivity.
  - rewrite Hdata. reflexivity.
Defined.

Lemma verifies_spec data len cbArg dp :
  verifies data len cbArg dp = true <-> verified_write data len cbArg dp.
Proof.
  unfold verifies, verified_write, VitoConnect.memcmp_eq.
  rewrite !andb_true_iff, Z.ltb_lt, negb_true_iff.
  destruct (cb_d cbArg) as [d|].
  - rewrite andb_true_iff, Z.eqb_eq.
    destruct (list_eq_dec Z.eq_dec _ _) as [Heq|Hneq].
    + split; [|tauto]. intros [[Hp Hw] [Hl _]]. repeat split; try assumption.
      exists d. now split.
    + split; [intros [_ [_ Habs]]; discriminate|].
      intros (_ & _ & _ & d' & Hd' & Heq). injection Hd' as <-. contradiction.
  - split; [intros [_ Habs]; discriminate|].
    intros (_ & _ & _ & d' & Hd' & _). discriminate.
Qed.

Lemma onData_datapoint data len cbArg dp q now :
  snd (fst (VitoConnect._onData data len cbArg dp q now)) =
  if verifies data len cbArg dp then VitoConnect.clearLastUpdate dp else dp.
Proof.
  unfold VitoConnect._onData, verifies.
  destruct (0 <? dp_last_update dp), (cb_w cbArg), (cb_d cbArg) as [d|];
    cbn [negb andb fst snd]; try reflexivity.
  destruct (len =? dp_length dp); cbn [negb andb fst snd]; [|reflexivity].
  now destruct (VitoConnect.memcmp_eq data d len).
Qed.

Lemma onData_decode data len cbArg dp q now :
  In (VitoConnect.Decode data len)
     (fst (fst (VitoConnect._onData data len cbArg dp q now))) <->
  dp_last_update dp <= 0 /\ cb_w cbArg = false.
Proof.
  unfold VitoConnect._onData.
  destruct (Z.ltb_spec 0 (dp_last_update dp)) as [Hpend|Hclean].
  - assert (Hno : forall e, e <> VitoConnect.Decode data len ->
                    ~ In (VitoConnect.Decode data len) [e])
      by (intros e He [Heq|[]]; now apply He).
    split; [|intros [? _]; lia]. intro Hin. exfalso. revert Hin.
    destruct (cb_w cbArg), (cb_d cbArg) as [d|]; cbn [fst];
      try (apply Hno; discriminate).
    destruct (negb (len =? dp_length dp)); cbn [fst];
      [apply Hno; discriminate|].
    destruct (VitoConnect.memcmp_eq data d len); cbn [fst]; apply Hno; discriminate.
  - destruct (cb_w cbArg); cbn [negb fst].
    + split; [intros [] | intros [_ Habs]; discriminate].
    + split; [intros _; now split | intros _; now left].
Qed.

(** X17. [_onData] changes the datapoint in one case only, by clearing the
    pending-write stamp: the completion is a verification read (not a
    write, with bytes to compare), the datapoint still has a write pending,
    the length received is the length of the datapoint and the bytes
    received equal the bytes written.  In every other case the datapoint is
    left as it is; and the payload is handed to [decode] only for a read of
    a datapoint with no write pending. *)
Theorem onData_clears_only_verified_write data len cbArg dp q now :
  let effects := fst (fst (VitoConnect._onData data len cbArg dp q now)) in
  let dp' := snd (fst (VitoConnect._onData data len cbArg dp q now)) in
  (verified_write data len cbArg dp ->
     dp' = VitoConnect.clearLastUpdate dp /\ dp_last_update dp' = 0) /\
  (~ verified_write data len cbArg dp -> dp' = dp) /\
  (In (VitoConnect.Decode data len) effects <->
   dp_last_update dp <= 0 /\ cb_w cbArg = false).
Proof.
  cbv zeta. rewrite onData_datapoint. split; [|split].
  - intro Hok. apply verifies_spec in Hok. rewrite Hok. now split.
  - intro Hnot. destruct (verifies data len cbArg dp) eqn:Hv; [|reflexivity].
    apply verifies_spec in Hv. contradiction.
  - apply onData_decode.
Qed.

Lemma onData_clears_only_verified_write_witness :
  dp_last_update
    (snd (fst (VitoConnect._onData [1] 1 verify_cb modified_point
                 point_read_selected 1300))) = 0 /\
  snd (fst (VitoConnect._onData [2] 1 verify_cb modified_point
              point_read_selected 1300)) = modified_point.
Proof.
  split.
  - apply (onData_clears_only_verified_write [1] 1 verify_cb modified_point
             point_read_selected 1300).
    apply verifies_spec. reflexivity.
  - apply (onData_clears_only_verified_write [2] 1 verify_cb modified_point
             point_read_selected 1300).
    intro Hv. apply verifies_spec in Hv. discriminate Hv.
Defined.

(** * Further properties of the producer *)

Lemma reachable_enqueue_writes clock dps :
  forall q i, reachable q -> reachable (VitoConnect.enqueue_writes clock q i dps).
Proof.
  induction dps as [|dp rest IH]; intros q i Hq; cbn [VitoConnect.enqueue_writes];
    [assumption|].
  destruct (negb (dp_last_update dp =? 0)); [|now apply IH].
  pose proof (reachable_enqueue q (dp_address dp) (dp_length dp) true
                (Some (mkCbArg dp true (dp_last_update dp) None))
                (VitoConnect.comp_id dp) (clock (VitoConnect.AtWrite i)) Hq) as H1.
  destruct (enqueue q _ _ true _ _ _) as [ok q1]. cbn [snd] in H1.
  destruct ok; cbn [negb]; [|now apply IH].
  pose proof (reachable_enqueue q1 (dp_address dp) (dp_length dp) false
                (Some (mkCbArg dp false 0 (Some (dp_encode dp (dp_length dp)))))
                (VitoConnect.comp_id dp) (clock (VitoConnect.AtVerify i)) H1) as H2.
  destruct (enqueue q1 _ _ false _ _ _) as [ok2 q2]. cbn [snd] in H2.
  now apply IH.
Qed.

Lemma reachable_enqueue_reads clock dps :
  forall q i processed,
    reachable q ->
    reachable (fst (VitoConnect.enqueue_reads clock q i processed dps)).
Proof.
  induction dps as [|dp rest IH]; intros q i processed Hq;
    cbn [VitoConnect.enqueue_reads]; [assumption|].
  pose proof (reachable_enqueue q (dp_address dp) (dp_length dp) false
                (Some (mkCbArg dp false 0 None))
                (VitoConnect.comp_id dp) (clock (VitoConnect.AtRead i)) Hq) as H1.
  destruct (enqueue q _ _ false _ _ _) as [ok q1]. cbn [snd] in H1.
  destruct ok; cbn [negb]; [|now apply IH].
  destruct (_ <=? _)%nat; [assumption | now apply IH].
Qed.

(** X18. The producer step drives the scheduler through [enqueue] and
    [cleanup_stale] only: [update] leads from a reachable scheduler to a
    reachable one, whatever the datapoints, the cursor and the clock, so the
    store stays within 64 requests however many datapoints are registered
    or modified. *)
Theorem update_keeps_scheduler_reachable clock dps v :
  reachable (VitoConnect.smart_queue v) ->
  reachable (VitoConnect.smart_queue (VitoConnect.update clock dps v)) /\
  (size (VitoConnect.smart_queue (VitoConnect.update clock dps v))
   <= MAX_QUEUE_SIZE)%nat.
Proof.
  intro Hq.
  assert (Hreach : reachable
            (VitoConnect.smart_queue (VitoConnect.update clock dps v))).
  { unfold VitoConnect.update.
    pose proof (reachable_enqueue_reads clock
                  (skipn (VitoConnect.last_datapoint_index v) dps)
                  (VitoConnect.enqueue_writes clock (VitoConnect.smart_queue v) 0 dps)
                  (VitoConnect.last_datapoint_index v) 0
                  (reachable_enqueue_writes clock dps _ 0 Hq)) as H2.
    destruct (VitoConnect.enqueue_reads _ _ _ _ _) as [q2 [next|]];
      cbn [fst] in H2; cbn [VitoConnect.smart_queue]; [assumption|].
    destruct (10 <=? _); cbn [VitoConnect.smart_queue]; auto with queue. }
  split; [exact Hreach|].
  clear Hq. induction Hreach as [|s c _ IH]; [cbn; lia|]. now apply size_step.
Qed.

Lemma update_keeps_scheduler_reachable_witness :
  (size (VitoConnect.smart_queue
           (VitoConnect.update (fun _ => 1000%Z) points_35 VitoConnect.init))
   <= MAX_QUEUE_SIZE)%nat.
Proof.
  apply (update_keeps_scheduler_reachable (fun _ => 1000) points_35 VitoConnect.init).
  apply reach_init.
Defined.

Lemma enqueue_reads_cursor clock dps :
  forall q i processed q' next,
    VitoConnect.enqueue_reads clock q i processed dps = (q', Some next) ->
    (i < next <= i + List.length dps)%nat.
Proof.
  induction dps as [|dp rest IH]; intros q i processed q' next;
    cbn [VitoConnect.enqueue_reads List.length]; [discriminate|].
  destruct (enqueue q _ _ false _ _ _) as [ok q1].
  destruct ok; cbn [negb].
  - destruct (_ <=? _)%nat.
    + intro H. injection H as _ <-. lia.
    + intro H. apply IH in H. lia.
  - intro H. apply IH in H. lia.
Qed.

(** X19. The producer state stays in range: after [update] the saved
    cursor is at most the number of registered datapoints, whatever cursor
    the step started from, and a cleanup counter between 0 and 9 stays
    between 0 and 9. *)
Theorem update_keeps_cursor_in_range clock dps v :
  (VitoConnect.last_datapoint_index (VitoConnect.update clock dps v)
   <= List.length dps)%nat /\
  (0 <= VitoConnect.cleanup_counter v < 10 ->
   0 <= VitoConnect.cleanup_counter (VitoConnect.update clock dps v) < 10).
Proof.
  unfold VitoConnect.update.
  destruct (VitoConnect.enqueue_reads _ _ _ _ _) as [q2 [next|]] eqn:Hreads.
  - cbn [VitoConnect.last_datapoint_index VitoConnect.cleanup_counter].
    split; [|tauto].
    apply enqueue_reads_cursor in Hreads. rewrite length_skipn in Hreads. lia.
  - destruct (Z.leb_spec 10 (VitoConnect.cleanup_counter v + 1));
      cbn [VitoConnect.last_datapoint_index VitoConnect.cleanup_counter];
      split; lia.
Qed.

Lemma update_keeps_cursor_in_range_witness :
  0 <= VitoConnect.cleanup_counter
         (VitoConnect.update (fun _ => 1000) [] (VitoConnect.mk init 9 0)) < 10.
Proof.
  apply (update_keeps_cursor_in_range (fun _ => 1000) [] (VitoConnect.mk init 9 0)).
  cbn. lia.
Defined.

Lemma modified_count_cons dp rest :
  modified_count (dp :: rest) =
  if negb (dp_last_update dp =? 0) then S (modified_count rest)
  else modified_count rest.
Proof.
  unfold modified_count. cbn [filter].
  now destruct (negb (dp_last_update dp =? 0)).
Qed.

Lemma length_pushed s req :
  List.length (write_queue (pushed s req)) =
    (if is_write req then S (List.length (write_queue s))
     else List.length (write_queue s)) /\
  List.length (read_queue (pushed s req)) =
    (if is_write req then List.length (read_queue s)
     else S (List.length (read_queue s))).
Proof.
  unfold pushed. destruct (is_write req); cbn; rewrite length_app; cbn; lia.
Qed.

Lemma enqueue_lengths s addr len write arg ct now :
  let s' := snd (enqueue s addr len write arg ct now) in
  (List.length (write_queue s) <= List.length (write_queue s')
   <= List.length (write_queue s) + (if write then 1 else 0))%nat /\
  (List.length (read_queue s) <= List.length (read_queue s')
   <= List.length (read_queue s) + (if write then 0 else 1))%nat.
Proof.
  cbv zeta.
  destruct (enqueue_cases s addr len write arg ct now)
    as [[-> _] | [[-> _] | [-> _]]]; cbn [snd]; try lia.
  destruct (length_pushed s (mkReq addr len write arg ct now)) as [Hw Hr].
  cbn [is_write] in Hw, Hr. rewrite Hw, Hr. destruct write; lia.
Qed.

Lemma enqueue_refused_unchanged s addr len write arg ct now :
  fst (enqueue s addr len write arg ct now) = false ->
  snd (enqueue s addr len write arg ct now) = s.
Proof.
  destruct (enqueue_cases s addr len write arg ct now)
    as [[-> _] | [[-> _] | [-> _]]]; cbn [fst snd]; [reflexivity | | discriminate].
  reflexivity.
Qed.

Lemma enqueue_writes_counts clock dps :
  forall q i,
    let q' := VitoConnect.enqueue_writes clock q i dps in
    (write_count q' <= write_count q + modified_count dps)%nat /\
    (read_count q' <= read_count q + modified_count dps)%nat.
Proof.
  unfold write_count, read_count.
  induction dps as [|dp rest IH]; intros q i;
    cbn [VitoConnect.enqueue_writes]; [cbn; lia|].
  rewrite modified_count_cons.
  destruct (negb (dp_last_update dp =? 0)); [|apply IH].
  pose proof (enqueue_lengths q (dp_address dp) (dp_length dp) true
                (Some (mkCbArg dp true (dp_last_update dp) None))
                (VitoConnect.comp_id dp) (clock (VitoConnect.AtWrite i))) as H1.
  cbv zeta in H1.
  destruct (enqueue q _ _ true _ _ _) as [ok q1]. cbn [snd] in H1.
  destruct ok; cbn [negb].
  - pose proof (enqueue_lengths q1 (dp_address dp) (dp_length dp) false
                  (Some (mkCbArg dp false 0 (Some (dp_encode dp (dp_length dp)))))
                  (VitoConnect.comp_id dp) (clock (VitoConnect.AtVerify i))) as H2.
    cbv zeta in H2.
    destruct (enqueue q1 _ _ false _ _ _) as [ok2 q2]. cbn [snd] in H2.
    specialize (IH q2 (S i)). cbv zeta in IH. lia.
  - specialize (IH q1 (S i)). cbv zeta in IH. lia.
Qed.

Lemma enqueue_reads_counts clock dps :
  forall q i processed,
    (processed < VitoConnect.BATCH_SIZE)%nat ->
    let q' := fst (VitoConnect.enqueue_reads clock q i processed dps) in
    write_queue q' = write_queue q /\
    (read_count q' + processed <= read_count q + VitoConnect.BATCH_SIZE)%nat.
Proof.
  unfold read_count.
  induction dps as [|dp rest IH]; intros q i processed Hp;
    cbn [VitoConnect.enqueue_reads]; [cbn; split; [reflexivity|lia]|].
  pose proof (enqueue_lengths q (dp_address dp) (dp_length dp) false
                (Some (mkCbArg dp false 0 None))
                (VitoConnect.comp_id dp) (clock (VitoConnect.AtRead i))) as Hlen.
  assert (Hwq : write_queue (snd (enqueue q (dp_address dp) (dp_length dp) false
                  (Some (mkCbArg dp false 0 None))
                  (VitoConnect.comp_id dp) (clock (VitoConnect.AtRead i))))
                = write_queue q).
  { destruct (enqueue_cases q (dp_address dp) (dp_length dp) false
                (Some (mkCbArg dp false 0 None))
                (VitoConnect.comp_id dp) (clock (VitoConnect.AtRead i)))
      as [[-> _] | [[-> _] | [-> _]]]; reflexivity. }
  cbv zeta in Hlen.
  pose proof (enqueue_refused_unchanged q (dp_address dp) (dp_length dp) false
                (Some (mkCbArg dp false 0 None))
                (VitoConnect.comp_id dp) (clock (VitoConnect.AtRead i))) as Hsame.
  destruct (enqueue q _ _ false _ _ _) as [ok q1]. cbn [fst snd] in Hlen, Hwq, Hsame.
  destruct ok; cbn [negb].
  - destruct (Nat.leb_spec VitoConnect.BATCH_SIZE (S processed)) as [Hfull|Hmore].
    + cbn [fst]. split; [assumption|lia].
    + specialize (IH q1 (S i) (S processed) Hmore). cbv zeta in IH.
      cbv zeta. rewrite <- Hwq. split; [tauto|lia].
  - rewrite (Hsame eq_refl). now apply IH.
Qed.

(** X20. The work of one producer step is bounded: [update] adds at most
    one write per modified datapoint to the write queue, and to the read
    queue at most one verification read per modified datapoint plus
    [BATCH_SIZE = 20] baseline reads, however many datapoints are
    registered. *)
Theorem update_growth_is_bounded clock dps v :
  let q := VitoConnect.smart_queue v in
  let q' := VitoConnect.smart_queue (VitoConnect.update clock dps v) in
  (write_count q' <= write_count q + modified_count dps)%nat /\
  (read_count q' <= read_count q + modified_count dps + 20)%nat.
Proof.
  cbv zeta. unfold VitoConnect.update.
  pose proof (enqueue_writes_counts clock dps (VitoConnect.smart_queue v) 0) as H1.
  cbv zeta in H1. destruct H1 as [Hw1 Hr1].
  set (q1 := VitoConnect.enqueue_writes clock (VitoConnect.smart_queue v) 0 dps) in *.
  pose proof (enqueue_reads_counts clock
                (skipn (VitoConnect.last_datapoint_index v) dps) q1
                (VitoConnect.last_datapoint_index v) 0) as H2.
  cbv zeta in H2. destruct H2 as [Hw2 Hr2]; [apply Nat.ltb_lt; reflexivity|].
  destruct (VitoConnect.enqueue_reads _ _ _ _ _) as [q2 [next|]];
    cbn [fst] in Hw2, Hr2; cbn [VitoConnect.smart_queue].
  - unfold write_count, read_count in *. rewrite Hw2.
    change VitoConnect.BATCH_SIZE with 20%nat in Hr2. lia.
  - assert (Hq2 : (write_count q2 <= write_count (VitoConnect.smart_queue v)
                                     + modified_count dps)%nat /\
                  (read_count q2 <= read_count (VitoConnect.smart_queue v)
                                    + modified_count dps + 20)%nat).
    { unfold write_count, read_count in *. rewrite Hw2.
      change VitoConnect.BATCH_SIZE with 20%nat in Hr2. lia. }
    destruct (10 <=? _); cbn [VitoConnect.smart_queue]; [|exact Hq2].
    unfold cleanup_stale, write_count, read_count in *. cbn [write_queue read_queue].
    pose proof (length_cleanup (clock VitoConnect.AtCleanup) (write_queue q2)).
    pose proof (length_cleanup (clock VitoConnect.AtCleanup) (read_queue q2)).
    lia.
Qed.

Lemma enqueue_reads_window clock dps :
  forall q i processed,
    (processed < VitoConnect.BATCH_SIZE)%nat ->
    let window := firstn (VitoConnect.BATCH_SIZE - processed) dps in
    NoDup (map dp_key window) ->
    (forall dp, In dp window -> ~ In (dp_key dp) (map key (read_queue q))) ->
    (size q + List.length window <= MAX_QUEUE_SIZE)%nat ->
    VitoConnect.enqueue_reads clock q i processed dps =
    (pushed_reads q (baseline_reads clock i window),
     if (processed + List.length dps <? VitoConnect.BATCH_SIZE)%nat then None
     else Some (i + (VitoConnect.BATCH_SIZE - processed))%nat).
Proof.
  induction dps as [|dp rest IH]; intros q i processed Hp window Hnd Hfresh Hroom;
    subst window.
  - cbn [VitoConnect.enqueue_reads List.length]. rewrite firstn_nil.
    cbn [baseline_reads]. rewrite pushed_reads_nil, Nat.add_0_r.
    apply Nat.ltb_lt in Hp. now rewrite Hp.
  - assert (Hsub : (VitoConnect.BATCH_SIZE - processed
                    = S (VitoConnect.BATCH_SIZE - S processed))%nat) by lia.
    rewrite Hsub in Hnd, Hfresh, Hroom |- *.
    cbn [firstn map List.length baseline_reads] in Hnd, Hfresh, Hroom |- *.
    cbn [VitoConnect.enqueue_reads].
    inversion Hnd as [|? ? Hhead Hrest]; subst.
    rewrite (enqueue_baseline_read clock q i dp); [|lia | apply Hfresh; now left].
    cbn [negb]. rewrite <- pushed_reads_cons by reflexivity.
    destruct (Nat.leb_spec VitoConnect.BATCH_SIZE (S processed)) as [Hfull|Hmore].
    + replace (VitoConnect.BATCH_SIZE - S processed)%nat with 0%nat by lia.
      cbn [firstn baseline_reads]. rewrite pushed_reads_nil.
      destruct (Nat.ltb_spec (processed + S (List.length rest)) VitoConnect.BATCH_SIZE);
        [lia|]. f_equal. f_equal. lia.
    + rewrite IH; try assumption.
      * f_equal.
        destruct (Nat.ltb_spec (S processed + List.length rest) VitoConnect.BATCH_SIZE),
                 (Nat.ltb_spec (processed + S (List.length rest)) VitoConnect.BATCH_SIZE);
          try lia; [reflexivity|]. f_equal. lia.
      * intros dp' Hin. unfold pushed. cbn [baseline_read is_write read_queue].
        rewrite map_app, in_app_iff. cbn. intros [Hold | [Hsame | []]].
        -- apply (Hfresh dp'); [now right | assumption].
        -- apply Hhead. change (dp_key dp = dp_key dp') in Hsame.
           rewrite Hsame. now apply in_map.
      * rewrite size_pushed. lia.
Qed.

(** X21. One producer step in general: with no datapoint modified, a
    window of up to 20 datapoints starting at the cursor whose keys are
    pairwise distinct and not yet queued as reads, room in the store for the
    window, and the cleanup not due, [update] pushes exactly the baseline
    reads of the window, in order, at the back of the read queue, and moves
    the cursor 20 further, or back to 0 when fewer than 20 datapoints were
    left.  The number of registered datapoints is arbitrary. *)
Theorem update_batch_step clock dps v :
  let c := VitoConnect.last_datapoint_index v in
  let window := firstn 20 (skipn c dps) in
  Forall (fun dp => dp_last_update dp = 0) dps ->
  NoDup (map dp_key window) ->
  (forall dp, In dp window ->
     ~ In (dp_key dp) (map key (read_queue (VitoConnect.smart_queue v)))) ->
  (size (VitoConnect.smart_queue v) + List.length window <= MAX_QUEUE_SIZE)%nat ->
  VitoConnect.cleanup_counter v + 1 < 10 ->
  VitoConnect.smart_queue (VitoConnect.update clock dps v) =
    pushed_reads (VitoConnect.smart_queue v) (baseline_reads clock c window) /\
  VitoConnect.last_datapoint_index (VitoConnect.update clock dps v) =
    (if (c + 20 <=? List.length dps)%nat then (c + 20)%nat else 0%nat).
Proof.
  intros c window Hclean Hnd Hfresh Hroom Hcounter. subst c window.
  unfold VitoConnect.update.
  rewrite (enqueue_writes_unmodified clock dps Hclean).
  rewrite enqueue_reads_window; try assumption; [|apply Nat.ltb_lt; reflexivity].
  change (VitoConnect.BATCH_SIZE - 0)%nat with 20%nat.
  change VitoConnect.BATCH_SIZE with 20%nat.
  rewrite length_skipn.
  destruct (Nat.ltb_spec (0 + (List.length dps - VitoConnect.last_datapoint_index v)) 20),
           (Nat.leb_spec (VitoConnect.last_datapoint_index v + 20) (List.length dps));
    try lia.
  - apply Z.leb_gt in Hcounter. rewrite Hcounter. cbn. split; reflexivity.
  - cbn. split; [reflexivity | lia].
Qed.

Lemma update_batch_step_witness :
  VitoConnect.last_datapoint_index
    (VitoConnect.update (fun _ => 1000) points_35 (VitoConnect.mk init 0 20)) = 0%nat /\
  VitoConnect.last_datapoint_index
    (VitoConnect.update (fun _ => 1000) points_35 VitoConnect.init) = 20%nat.
Proof.
  assert (Hclean : Forall (fun dp => dp_last_update dp = 0) points_35).
  { apply Forall_forall. intros dp Hin. apply in_map_iff in Hin as (i & <- & _).
    reflexivity. }
  split.
  - apply (update_batch_step (fun _ => 1000) points_35 (VitoConnect.mk init 0 20)).
    + exact Hclean.
    + apply distinct_keys_NoDup. vm_compute. reflexivity.
    + intros dp _ [].
    + apply Nat.leb_le. vm_compute. reflexivity.
    + reflexivity.
  - apply (update_batch_step (fun _ => 1000) points_35 VitoConnect.init).
    + exact Hclean.
    + apply distinct_keys_NoDup. vm_compute. reflexivity.
    + intros dp _ [].
    + apply Nat.leb_le. vm_compute. reflexivity.
    + reflexivity.
Defined.

Lemma enqueue_writes_new_writes clock dps r :
  forall q i,
    In r (write_queue (VitoConnect.enqueue_writes clock q i dps)) ->
    In r (write_queue q) \/
    exists dp k, In dp dps /\ dp_last_update dp <> 0 /\ r = write_request clock k dp.
Proof.
  induction dps as [|dp rest IH]; intros q i; cbn [VitoConnect.enqueue_writes];
    [now left|].
  assert (Hrest : forall q' j,
            (forall x, In x (write_queue q') ->
               In x (write_queue q) \/ dp_last_update dp <> 0 /\ x = write_request clock i dp) ->
            In r (write_queue (VitoConnect.enqueue_writes clock q' j rest)) ->
            In r (write_queue q) \/
            exists dp0 k, In dp0 (dp :: rest) /\ dp_last_update dp0 <> 0 /\
                          r = write_request clock k dp0).
  { intros q' j Hq' Hin. apply IH in Hin as [Hin | (dp0 & k & Hin & Hmod & ->)].
    - apply Hq' in Hin as [Hin | [Hmod ->]]; [now left|].
      right. exists dp, i. repeat split; [now left | assumption].
    - right. exists dp0, k. repeat split; [now right | assumption]. }
  destruct (Z.eqb_spec (dp_last_update dp) 0) as [Hzero|Hmod]; cbn [negb].
  - apply Hrest. intros x Hx. now left.
  - assert (Hq1 : forall x,
              In x (write_queue (snd (enqueue q (dp_address dp) (dp_length dp) true
                      (Some (mkCbArg dp true (dp_last_update dp) None))
                      (VitoConnect.comp_id dp) (clock (VitoConnect.AtWrite i))))) ->
              In x (write_queue q) \/
              dp_last_update dp <> 0 /\ x = write_request clock i dp).
    { destruct (enqueue_cases q (dp_address dp) (dp_length dp) true
                  (Some (mkCbArg dp true (dp_last_update dp) None))
                  (VitoConnect.comp_id dp) (clock (VitoConnect.AtWrite i)))
        as [[-> _] | [[-> _] | [-> _]]]; cbn [snd]; try (intros x Hx; now left).
      unfold pushed. cbn. intros x Hx. apply in_app_iff in Hx as [Hx | [<- | []]];
        [now left | right; now split]. }
    destruct (enqueue q _ _ true _ _ _) as [ok q1]. cbn [snd] in Hq1.
    destruct ok; cbn [negb]; [|now apply Hrest].
    assert (Hq2 : write_queue (snd (enqueue q1 (dp_address dp) (dp_length dp) false
                     (Some (mkCbArg dp false 0 (Some (dp_encode dp (dp_length dp)))))
                     (VitoConnect.comp_id dp) (clock (VitoConnect.AtVerify i))))
                  = write_queue q1).
    { destruct (enqueue_cases q1 (dp_address dp) (dp_length dp) false
                  (Some (mkCbArg dp false 0 (Some (dp_encode dp (dp_length dp)))))
                  (VitoConnect.comp_id dp) (clock (VitoConnect.AtVerify i)))
        as [[-> _] | [[-> _] | [-> _]]]; reflexivity. }
    destruct (enqueue q1 _ _ false _ _ _) as [ok2 q2]. cbn [snd] in Hq2.
    apply Hrest. rewrite Hq2. exact Hq1.
Qed.

(** X22. [update] creates writes for modified datapoints only: a request
    found in the write queue after the step was either there before or is
    the write of a registered datapoint whose modification stamp is not 0,
    with the address, length and component identifier of that datapoint and
    a callback argument that records the datapoint and its stamp. *)
Theorem update_writes_only_modified clock dps v r :
  In r (write_queue (VitoConnect.smart_queue (VitoConnect.update clock dps v))) ->
  In r (write_queue (VitoConnect.smart_queue v)) \/
  exists dp k, In dp dps /\ dp_last_update dp <> 0 /\ r = write_request clock k dp.
Proof.
  unfold VitoConnect.update.
  pose proof (enqueue_reads_counts clock
                (skipn (VitoConnect.last_datapoint_index v) dps)
                (VitoConnect.enqueue_writes clock (VitoConnect.smart_queue v) 0 dps)
                (VitoConnect.last_datapoint_index v) 0) as Hreads.
  cbv zeta in Hreads. destruct Hreads as [Hw _]; [apply Nat.ltb_lt; reflexivity|].
  destruct (VitoConnect.enqueue_reads _ _ _ _ _) as [q2 [next|]]; cbn [fst] in Hw.
  - cbn [VitoConnect.smart_queue]. rewrite Hw. apply enqueue_writes_new_writes.
  - destruct (10 <=? _); cbn [VitoConnect.smart_queue].
    + unfold cleanup_stale. cbn [write_queue]. intro Hin.
      apply in_cleanup in Hin as [Hin _]. rewrite Hw in Hin.
      now apply enqueue_writes_new_writes in Hin.
    + rewrite Hw. apply enqueue_writes_new_writes.
Qed.

Lemma update_writes_only_modified_witness :
  In (write_request (fun _ => 1000) 0 modified_point)
     (write_queue (VitoConnect.smart_queue VitoConnect.init)) \/
  exists dp k,
    In dp [modified_point] /\ dp_last_update dp <> 0 /\
    write_request (fun _ => 1000) 0 modified_point = write_request (fun _ => 1000) k dp.
Proof.
  apply (update_writes_only_modified (fun _ => 1000) [modified_point]
           VitoConnect.init).
  now left.
Defined.

(** X23. Write and verification.  For a datapoint with a write pending, on
    a scheduler with two free slots where neither its write nor its read is
    queued, pass 1 of [update] pushes the write and, behind the reads, a
    verification read whose callback argument carries the bytes the
    datapoint encodes.  When that read completes with exactly those bytes,
    [_onData] clears the pending stamp; when it completes with other bytes
    of the same length, the stamp stays. *)
Theorem verification_read_confirms_write clock q i dp :
  0 < dp_last_update dp ->
  (size q + 2 <= MAX_QUEUE_SIZE)%nat ->
  ~ In (dp_address dp, true, VitoConnect.comp_id dp) (map key (write_queue q)) ->
  ~ In (dp_key dp) (map key (read_queue q)) ->
  let bytes := dp_encode dp (dp_length dp) in
  let vcb := mkCbArg dp false 0 (Some bytes) in
  let q1 := VitoConnect.enqueue_writes clock q i [dp] in
  write_queue q1 = write_queue q ++ [write_request clock i dp] /\
  read_queue q1 =
    read_queue q ++ [mkReq (dp_address dp) (dp_length dp) false (Some vcb)
                       (VitoConnect.comp_id dp) (clock (VitoConnect.AtVerify i))] /\
  (forall q2 now,
     snd (fst (VitoConnect._onData bytes (dp_length dp) vcb dp q2 now)) =
       VitoConnect.clearLastUpdate dp) /\
  (forall data q2 now,
     firstn (Z.to_nat (dp_length dp)) data <> firstn (Z.to_nat (dp_length dp)) bytes ->
     snd (fst (VitoConnect._onData data (dp_length dp) vcb dp q2 now)) = dp).
Proof.
  intros Hpend Hroom Hwfresh Hrfresh. cbv zeta.
  assert (Hmod : negb (dp_last_update dp =? 0) = true).
  { apply negb_true_iff, Z.eqb_neq. lia. }
  cbn [VitoConnect.enqueue_writes]. rewrite Hmod.
  rewrite (enqueue_pushed q (dp_address dp) (dp_length dp) true); [|lia|].
  2:{ cbn [dedup_checked orb andb]. apply Bool.not_true_iff_false. intro Hp.
      apply has_pending_iff in Hp. now apply Hwfresh. }
  cbn [negb].
  rewrite (enqueue_pushed (pushed q _) (dp_address dp) (dp_length dp) false);
    [|rewrite size_pushed; lia|].
  2:{ apply andb_false_iff. right. apply Bool.not_true_iff_false. intro Hp.
      apply has_pending_iff in Hp. now apply Hrfresh. }
  split; [reflexivity|]. split; [reflexivity|]. split.
  - intros q2 now. rewrite onData_datapoint.
    replace (verifies _ _ _ _) with true; [reflexivity|].
    symmetry. apply verifies_spec. repeat split; try assumption.
    eexists. split; reflexivity.
  - intros data q2 now Hdiff. rewrite onData_datapoint.
    replace (verifies _ _ _ _) with false; [reflexivity|].
    symmetry. apply Bool.not_true_iff_false. intro Hv.
    apply verifies_spec in Hv. destruct Hv as (_ & _ & _ & d & Hd & Heq).
    cbn in Hd. injection Hd as <-. contradiction.
Qed.

Lemma verification_read_confirms_write_witness :
  let q1 := VitoConnect.enqueue_writes (fun _ => 1000) init 0 [modified_point] in
  write_queue q1 = [write_request (fun _ => 1000) 0 modified_point] /\
  map callback_arg (read_queue q1) = [Some verify_cb] /\
  snd (fst (VitoConnect._onData [1] 1 verify_cb modified_point q1 2000)) =
    VitoConnect.clearLastUpdate modified_point.
Proof.
  destruct (verification_read_confirms_write (fun _ => 1000) init 0 modified_point)
    as (Hw & Hr & Hok & _).
  - reflexivity.
  - apply Nat.leb_le. reflexivity.
  - intros [].
  - intros [].
  - cbv zeta. split; [exact Hw|]. split; [now rewrite Hr|]. apply Hok.
Defined.

(** * Order of service *)

(** X24. Requests are served in the order of the write queue followed by
    the read queue: with nothing in flight and two requests [a], [b] at the
    head of that sequence, a [get_next] that is due returns [a]; after
    [release_current], the next [get_next] made at least
    [INTER_COMM_DELAY_MS] later returns [b]. *)
Theorem requests_served_in_queue_order s a b rest now now_rel t_rel now' now_rel' :
  has_current s = false ->
  throttled s now = false ->
  INTER_COMM_DELAY_MS <= wsub now (last_comm_time s) ->
  write_queue s ++ read_queue s = a :: b :: rest ->
  INTER_COMM_DELAY_MS <= wsub now' t_rel ->
  let s1 := snd (get_next s now now_rel) in
  let s2 := release_current s1 t_rel in
  fst (get_next s now now_rel) = Some a /\
  fst (get_next s2 now' now_rel') = Some b /\
  write_queue s2 ++ read_queue s2 = b :: rest.
Proof.
  intros Hidle Hthr Hdue Horder Hdue'. cbv zeta.
  rewrite (get_next_idle_due s now now_rel Hidle Hthr Hdue).
  assert (Hafter : forall s2,
            has_current s2 = false -> last_retry_time s2 = 0 ->
            last_comm_time s2 = t_rel ->
            write_queue s2 ++ read_queue s2 = b :: rest ->
            fst (get_next s2 now' now_rel') = Some b).
  { intros s2 Hidle2 Hthr2 Hcomm2 Horder2.
    rewrite (get_next_idle_due s2 now' now_rel' Hidle2).
    - destruct (write_queue s2) as [|w wq2]; cbn in Horder2.
      + rewrite Horder2. reflexivity.
      + injection Horder2 as -> _. reflexivity.
    - unfold throttled. now rewrite Hthr2.
    - now rewrite Hcomm2. }
  assert (Hrel : forall write,
            has_current (release_current (select s write) t_rel) = false /\
            last_retry_time (release_current (select s write) t_rel) = 0 /\
            last_comm_time (release_current (select s write) t_rel) = t_rel /\
            write_queue (release_current (select s write) t_rel) =
              (if write then tl (write_queue s) else write_queue s) /\
            read_queue (release_current (select s write) t_rel) =
              (if write then read_queue s else tl (read_queue s))).
  { intro write. unfold release_current, select. cbn. auto. }
  destruct (write_queue s) as [|w wq] eqn:Hw; cbn [app] in Horder.
  - rewrite Horder. cbn [fst snd]. split; [reflexivity|].
    destruct (Hrel false) as (H1 & H2 & H3 & H4 & H5).
    assert (Hs2 : write_queue (release_current (select s false) t_rel) ++
                  read_queue (release_current (select s false) t_rel) = b :: rest)
      by (rewrite H4, H5, ?Hw, ?Horder; reflexivity).
    split; [now apply Hafter | exact Hs2].
  - injection Horder as -> Horder. cbn [fst snd]. split; [reflexivity|].
    destruct (Hrel true) as (H1 & H2 & H3 & H4 & H5).
    assert (Hs2 : write_queue (release_current (select s true) t_rel) ++
                  read_queue (release_current (select s true) t_rel) = b :: rest)
      by (rewrite H4, H5, ?Hw; exact Horder).
    split; [now apply Hafter | exact Hs2].
Qed.

Lemma requests_served_in_queue_order_witness :
  let s := snd (enqueue one_read 0x2323 1 true None 3 1010) in
  fst (get_next s 1100 1100) = Some (mkReq 0x2323 1 true None 3 1010) /\
  fst (get_next (release_current (snd (get_next s 1100 1100)) 1200) 1250 1250) =
    Some (mkReq 0x2306 1 false None 7 1000).
Proof.
  destruct (requests_served_in_queue_order
              (snd (enqueue one_read 0x2323 1 true None 3 1010))
              (mkReq 0x2323 1 true None 3 1010) (mkReq 0x2306 1 false None 7 1000)
              [] 1100 1100 1200 1250 1250) as (Ha & Hb & _).
  - reflexivity.
  - reflexivity.
  - vm_compute. discriminate.
  - reflexivity.
  - vm_compute. discriminate.
  - cbv zeta. split; [exact Ha | exact Hb].
Defined.
